(** * Watermark-region reconstruction engine of [ImageProcessor.tsx]

    Shallow embedding of the pixel algorithms of
    [src/components/ImageProcessor.tsx]: the watermark locator
    [getWatermarkInfo], the alpha-map builder [calculateAlphaMap], the box
    blur [applyBoxBlur], the border-sampling inpainter [applyInpaint], the
    alpha-map-guided reconstruction [removeWatermarkWithAlphaMap] and the
    method dispatch of [process].

    Conventions of the model:
    - JavaScript numbers are modelled as exact rationals [Q] (the float
      rounding of [Math.sqrt], [/] and [Float32Array] is not modelled); a
      [NaN] is [None] in an [option Q].
    - A [Uint8ClampedArray] is a function [Z -> Z] over its indices together
      with its length; a store goes through [to_uint8_clamp] (ToUint8Clamp of
      ECMAScript: NaN to 0, clamp to [0,255], round half to even); a store
      out of range is ignored and a read out of range is [undefined].
    - A canvas is a flat row-major RGBA buffer; [getImageData] yields
      transparent black outside the canvas, [putImageData] writes only the
      pixels inside the canvas. *)

From Stdlib Require Import ZArith QArith Qround Qminmax List Bool Lia Lqa.
From Stdlib Require Import FunctionalExtensionality.
From Stdlib Require Strings.String.
Import ListNotations.
Import (notations) String.

Open Scope Z_scope.

(** ** JavaScript numeric helpers *)

(** [Math.round]: nearest integer, ties towards +infinity. *)
Definition js_round (q : Q) : Z := Qfloor (q + (1 # 2)).

(** Strict comparison of rationals, as a boolean. *)
Definition Qlt_bool (a b : Q) : bool := negb (Qle_bool b a).

(** ToUint8Clamp, the conversion of a store into a [Uint8ClampedArray]. *)
Definition to_uint8_clamp (v : option Q) : Z :=
  match v with
  | None => 0
  | Some q =>
      if Qle_bool q 0 then 0
      else if Qle_bool 255 q then 255
      else
        let f := Qfloor q in
        let e := (q - inject_Z f)%Q in
        if Qlt_bool e (1 # 2) then f
        else if Qlt_bool (1 # 2) e then f + 1
        else if Z.even f then f else f + 1
  end.

(** [for (let v = lo; v <= hi; v += step)] with [step > 0]: the values the
    loop variable takes, in order. *)
Definition zsteps (lo hi step : Z) : list Z :=
  map (fun k => lo + Z.of_nat k * step)
      (seq 0 (Z.to_nat ((hi - lo) / step + 1))).

(** [for (let v = lo; v < hi; v++)]. *)
Definition zrange (lo hi : Z) : list Z :=
  map (fun k => lo + Z.of_nat k) (seq 0 (Z.to_nat (hi - lo))).

(** ** Data model *)

(** [ImageData]: [data] has length [width * height * 4], row-major RGBA. *)
Record ImageData := mkImageData {
  img_width : Z;
  img_height : Z;
  img_data : Z -> Z
}.

Definition img_len (d : ImageData) : Z := img_width d * img_height d * 4.

(** Reading [data[i]]: [undefined] (here [None]) out of range. *)
Definition rd (d : ImageData) (i : Z) : option Z :=
  if (0 <=? i) && (i <? img_len d) then Some (img_data d i) else None.

(** Function update at one index. *)
Definition upd (f : Z -> Z) (i v : Z) : Z -> Z :=
  fun j => if j =? i then v else f j.

(** Storing [data[i] = v] into the [Uint8ClampedArray]. *)
Definition wr (d : ImageData) (i : Z) (v : option Q) : ImageData :=
  if (0 <=? i) && (i <? img_len d)
  then mkImageData (img_width d) (img_height d)
         (upd (img_data d) i (to_uint8_clamp v))
  else d.

(** ** Watermark position ([getWatermarkInfo], lines 45-57) *)

Record WatermarkInfo := mkInfo {
  size : Z;
  x : Z;
  y : Z;
  width : Z;
  height : Z
}.

Definition getWatermarkInfo (width height : Z) : WatermarkInfo :=
  let isLarge := (1024 <? width) && (1024 <? height) in
  let size := if isLarge then 96 else 48 in
  let margin := if isLarge then 64 else 32 in
  mkInfo size (width - margin - size) (height - margin - size) size size.

(** ** Alpha map ([calculateAlphaMap], lines 28-37) *)

Definition max3 (a b c : Z) : Z := Z.max (Z.max a b) c.

Definition calculateAlphaMap (bg : ImageData) : list Q :=
  map (fun k =>
         let idx := Z.of_nat k * 4 in
         max3 (img_data bg idx) (img_data bg (idx + 1)) (img_data bg (idx + 2))
           # 255)
      (seq 0 (Z.to_nat (img_width bg * img_height bg))).

(** ** Canvas model *)

(** A canvas is its backing RGBA buffer, an [ImageData] of the canvas size. *)
Definition Canvas := ImageData.

(** Pixel [(px, py)] and channel [k] of index [i] of a buffer [w] wide. *)
Definition pix_x (w i : Z) : Z := (i / 4) mod w.
Definition pix_y (w i : Z) : Z := (i / 4) / w.
Definition chan (i : Z) : Z := i mod 4.

Definition in_rect (x0 y0 w h X Y : Z) : bool :=
  (x0 <=? X) && (X <? x0 + w) && (y0 <=? Y) && (Y <? y0 + h).

Definition in_buf (c : ImageData) (i : Z) : bool := (0 <=? i) && (i <? img_len c).

(** [ctx.getImageData(sx, sy, sw, sh)]: a fresh [sw x sh] buffer, transparent
    black where the rectangle leaves the canvas. *)
Definition getImageData (c : Canvas) (sx sy sw sh : Z) : ImageData :=
  mkImageData sw sh (fun i =>
    if (0 <=? i) && (i <? sw * sh * 4) then
      let X := sx + pix_x sw i in
      let Y := sy + pix_y sw i in
      if in_rect 0 0 (img_width c) (img_height c) X Y
      then img_data c ((Y * img_width c + X) * 4 + chan i)
      else 0
    else 0).

(** [ctx.putImageData(d, dx, dy)]: the pixels of [d] that land on the canvas
    replace the canvas pixels; the rest of the canvas is kept. *)
Definition putImageData (c : Canvas) (d : ImageData) (dx dy : Z) : Canvas :=
  mkImageData (img_width c) (img_height c) (fun j =>
    let X := pix_x (img_width c) j in
    let Y := pix_y (img_width c) j in
    if in_buf c j && in_rect dx dy (img_width d) (img_height d) X Y
    then img_data d (((Y - dy) * img_width d + (X - dx)) * 4 + chan j)
    else img_data c j).

(** ** Box blur ([applyBoxBlur], lines 195-234) *)

(** The sums [cSum] and [count] of one channel [k] of pixel [(px, py)] over the
    [(2r+1) x (2r+1)] window, neighbour coordinates clamped to [0..w-1] and
    [0..h-1]. *)
Definition blur_sum (src : Z -> Z) (w h r px py k : Z) : Z * Z :=
  fold_left (fun acc ky =>
    fold_left (fun '(s, n) kx =>
      let nx := Z.min (Z.max (px + kx) 0) (w - 1) in
      let ny := Z.min (Z.max (py + ky) 0) (h - 1) in
      let i := (ny * w + nx) * 4 in
      (s + src (i + k), n + 1))
      (zsteps (- r) r 1) acc)
    (zsteps (- r) r 1) (0, 0).

(** One pass: [dst] is the snapshot [src] with every pixel of the [w x h]
    buffer overwritten by its window average (each index written once). *)
Definition blur_pass (d : ImageData) (r : Z) : ImageData :=
  let w := img_width d in
  let h := img_height d in
  mkImageData w h (fun i =>
    if in_buf d i then
      let '(s, n) := blur_sum (img_data d) w h r (pix_x w i) (pix_y w i) (chan i) in
      to_uint8_clamp (Some (inject_Z s / inject_Z n)%Q)
    else img_data d i).

Fixpoint blur_passes (n : nat) (c : Canvas) (x y w h r : Z) : Canvas :=
  match n with
  | O => c
  | S n' =>
      let imageData := getImageData c x y w h in
      blur_passes n' (putImageData c (blur_pass imageData r) x y) x y w h r
  end.

Definition applyBoxBlur (c : Canvas) (x y w h radius passes : Z) : Canvas :=
  let r := Z.max 1 (radius / passes) in
  blur_passes (Z.to_nat passes) c x y w h r.

(** ** Smart inpaint ([applyInpaint], lines 237-288) *)

(** [for (let v = lo; v < hi; v += step)] with [step > 0]. *)
Definition zsteps_lt (lo hi step : Z) : list Z :=
  map (fun k => lo + Z.of_nat k * step)
      (seq 0 (Z.to_nat ((hi - lo + step - 1) / step))).

Definition Pixel : Type := (Z * Z * Z * Z)%type.

(** [sampleAt(bx, by)]: the canvas pixel when it exists. *)
Definition sampleAt (c : Canvas) (canvasWidth canvasHeight bx by_ : Z) : list Pixel :=
  if (0 <=? bx) && (bx <? canvasWidth) && (0 <=? by_) && (by_ <? canvasHeight) then
    let d := getImageData c bx by_ 1 1 in
    [(img_data d 0, img_data d 1, img_data d 2, img_data d 3)]
  else [].

Definition borderSizeOf (w h : Z) : Z := Z.max 10 (Qfloor (inject_Z (Z.min w h) * (1 # 5))).

(** The collected [borderPixels], in the order of the two loop nests. *)
Definition borderPixels (c : Canvas) (x y w h canvasWidth canvasHeight : Z) : list Pixel :=
  let borderSize := borderSizeOf w h in
  let sampleStep := 2 in
  let sa := sampleAt c canvasWidth canvasHeight in
  flat_map (fun bx =>
      flat_map (fun by_ => sa bx by_) (zsteps_lt (y - borderSize) y sampleStep)
      ++ flat_map (fun by_ => sa bx by_) (zsteps_lt (y + h) (y + h + borderSize) sampleStep))
    (zsteps_lt (x - borderSize) (x + w + borderSize) sampleStep)
  ++ flat_map (fun by_ =>
      flat_map (fun bx => sa bx by_) (zsteps_lt (x - borderSize) x sampleStep)
      ++ flat_map (fun bx => sa bx by_) (zsteps_lt (x + w) (x + w + borderSize) sampleStep))
    (zsteps_lt y (y + h) sampleStep).

(** [avg]: channel sums divided by the number of samples. *)
Definition avgOf (ps : list Pixel) : Q * Q * Q * Q :=
  let '(r, g, b, a) :=
    fold_left (fun '(r0, g0, b0, a0) '(r, g, b, a) => (r0 + r, g0 + g, b0 + b, a0 + a))
              ps (0, 0, 0, 0) in
  let n := inject_Z (Z.of_nat (length ps)) in
  ((inject_Z r / n)%Q, (inject_Z g / n)%Q, (inject_Z b / n)%Q, (inject_Z a / n)%Q).

(** [edgeFactor] of pixel [(px, py)] of the [w x h] region. *)
Definition edgeFactor (w h px py : Z) : Q :=
  (inject_Z (Z.min (Z.min px (w - px)) (Z.min py (h - py)))
   / (inject_Z (Z.min w h) * (1 # 2)))%Q.

(** [noise] of pixel [(px, py)], given the value [u] of [Math.random()]. *)
Definition inpaintNoise (u : Q) (w h px py : Z) : Q :=
  ((u - (1 # 2)) * 12 * Qmin (edgeFactor w h px py) 1)%Q.

(** The filled region buffer; [rnd k] is the result of the [k]-th call of
    [Math.random()] (one call per pixel, row-major). *)
Definition inpaintFill (avg : Q * Q * Q * Q) (rnd : Z -> Q) (w h : Z) : ImageData :=
  let '(a0, a1, a2, _) := avg in
  mkImageData w h (fun i =>
    if (0 <=? i) && (i <? w * h * 4) then
      let px := pix_x w i in
      let py := pix_y w i in
      let noise := inpaintNoise (rnd (py * w + px)) w h px py in
      let k := chan i in
      if k =? 3 then 255
      else
        let a := if k =? 0 then a0 else if k =? 1 then a1 else a2 in
        to_uint8_clamp (Some (Qmin 255 (Qmax 0 (a + noise))))
    else 0).

Definition applyInpaint (c : Canvas) (rnd : Z -> Q) (x y w h canvasWidth canvasHeight : Z) : Canvas :=
  match borderPixels c x y w h canvasWidth canvasHeight with
  | [] => c
  | ps =>
      let filled := inpaintFill (avgOf ps) rnd w h in
      applyBoxBlur (putImageData c filled x y) x y w h 5 2
  end.

(** ** Alpha-map-guided inpaint ([removeWatermarkWithAlphaMap], lines 299-376) *)

Definition ALPHA_THRESHOLD : Q := 1 # 20.

(** [alphaMap[i]]: [undefined] out of range. *)
Definition alpha_at (alphaMap : list Q) (i : Z) : option Q :=
  if 0 <=? i then nth_error alphaMap (Z.to_nat i) else None.

(** [alphaMap[i] > ALPHA_THRESHOLD] ([undefined > 0.05] is false). *)
Definition alpha_gt (alphaMap : list Q) (i : Z) : bool :=
  match alpha_at alphaMap i with
  | Some a => Qlt_bool ALPHA_THRESHOLD a
  | None => false
  end.

Definition updb (m : Z -> bool) (i : Z) (v : bool) : Z -> bool :=
  fun j => if j =? i then v else m j.

(** The [mask] array (lines 313-320), as a function of its index; a fresh
    [Uint8Array] reads 0, and so does an index out of range. *)
Definition buildMask (alphaMap : list Q) (w h : Z) : Z -> bool :=
  fold_left (fun m row =>
    fold_left (fun m col =>
      if alpha_gt alphaMap (row * w + col) then updb m (row * w + col) true else m)
      (zrange 0 w) m)
    (zrange 0 h) (fun _ => false).

(** The running sums [rSum, gSum, bSum] (possibly NaN) and [wSum]. *)
Record NAcc := mkAcc {
  rSum : option Q;
  gSum : option Q;
  bSum : option Q;
  wSum : Q
}.

Definition acc0 : NAcc := mkAcc (Some 0%Q) (Some 0%Q) (Some 0%Q) 0%Q.

(** [sum += data[idx] * weight]; [undefined * weight] is NaN. *)
Definition addNum (s : option Q) (v : option Z) (wt : Q) : option Q :=
  match s, v with
  | Some s, Some v => Some (s + inject_Z v * wt)%Q
  | _, _ => None
  end.

(** Body of the [dx] loop (lines 336-363): [None] when the candidate is
    skipped by a [continue], otherwise the pixel index [imgIdx] that is read
    and the [weight] [1 / (dist * dist)].  With [dist = sqrt(d2)] and
    [radius >= 1], [dist < radius - 1] is [d2 < (radius - 1)^2] and
    [dist > radius + 1] is [d2 > (radius + 1)^2]. *)
Definition nsrCandidate (mask : Z -> bool) (ox oy w h canvasWidth canvasHeight
                         row col radius dx dy : Z) : option (Z * Q) :=
  let d2 := dx * dx + dy * dy in
  if (d2 <? (radius - 1) * (radius - 1)) || ((radius + 1) * (radius + 1) <? d2)
  then None
  else
    let sRow := row + dy in
    let sCol := col + dx in
    if (0 <=? sRow) && (sRow <? h) && (0 <=? sCol) && (sCol <? w) then
      if mask (sRow * w + sCol) then None
      else Some (((oy + sRow) * canvasWidth + (ox + sCol)) * 4, (1 / inject_Z d2)%Q)
    else
      let absRow := oy + sRow in
      let absCol := ox + sCol in
      if (absRow <? 0) || (canvasHeight <=? absRow) || (absCol <? 0) || (canvasWidth <=? absCol)
      then None
      else Some ((absRow * canvasWidth + absCol) * 4, (1 / inject_Z d2)%Q).

Definition nsrVisit (d : ImageData) (a : NAcc) (c : option (Z * Q)) : NAcc :=
  match c with
  | None => a
  | Some (imgIdx, weight) =>
      mkAcc (addNum (rSum a) (rd d imgIdx) weight)
            (addNum (gSum a) (rd d (imgIdx + 1)) weight)
            (addNum (bSum a) (rd d (imgIdx + 2)) weight)
            (wSum a + weight)%Q
  end.

(** One ring: the [dy] and [dx] loops at stride [max(1, floor(radius/2))]. *)
Definition nsrRing (d : ImageData) (mask : Z -> bool) (ox oy w h cw ch row col radius : Z)
                   (a : NAcc) : NAcc :=
  let step := Z.max 1 (radius / 2) in
  fold_left (fun a dy =>
    fold_left (fun a dx =>
      nsrVisit d a (nsrCandidate mask ox oy w h cw ch row col radius dx dy))
      (zsteps (- radius) radius step) a)
    (zsteps (- radius) radius step) a.

(** [for (radius = 1; radius <= SEARCH_RADIUS && wSum < 8; radius++)]. *)
Fixpoint nsrRings (fuel : nat) (d : ImageData) (mask : Z -> bool)
                  (ox oy w h cw ch row col radius SEARCH_RADIUS : Z) (a : NAcc) : NAcc :=
  match fuel with
  | O => a
  | S fuel' =>
      if (radius <=? SEARCH_RADIUS) && Qlt_bool (wSum a) 8 then
        nsrRings fuel' d mask ox oy w h cw ch row col (radius + 1) SEARCH_RADIUS
                 (nsrRing d mask ox oy w h cw ch row col radius a)
      else a
  end.

(** [data[i] = Math.round(sum / wSum)]; a NaN sum stays NaN. *)
Definition roundAvg (s : option Q) (ws : Q) : option Q :=
  option_map (fun s => inject_Z (js_round (s / ws))) s.

(** The body of the [row]/[col] loops (lines 325-373). *)
Definition nsrPixel (mask : Z -> bool) (ox oy w h cw ch SEARCH_RADIUS : Z)
                    (d : ImageData) (row col : Z) : ImageData :=
  if negb (mask (row * w + col)) then d
  else
    let a := nsrRings (Z.to_nat SEARCH_RADIUS) d mask ox oy w h cw ch row col 1
                      SEARCH_RADIUS acc0 in
    if Qlt_bool 0 (wSum a) then
      let imgIdx := ((oy + row) * cw + (ox + col)) * 4 in
      let d1 := wr d imgIdx (roundAvg (rSum a) (wSum a)) in
      let d2 := wr d1 (imgIdx + 1) (roundAvg (gSum a) (wSum a)) in
      wr d2 (imgIdx + 2) (roundAvg (bSum a) (wSum a))
    else d.

Definition removeWatermarkWithAlphaMap (imageData : ImageData) (alphaMap : list Q)
           (position : WatermarkInfo) (canvasWidth canvasHeight : Z) : ImageData :=
  let ox := x position in
  let oy := y position in
  let w := width position in
  let h := height position in
  let SEARCH_RADIUS := Z.max w h + 8 in
  let mask := buildMask alphaMap w h in
  fold_left (fun d row =>
    fold_left (fun d col =>
      nsrPixel mask ox oy w h canvasWidth canvasHeight SEARCH_RADIUS d row col)
      (zrange 0 w) d)
    (zrange 0 h) imageData.

(** ** Method dispatch ([process], lines 384-438) *)

Inductive Method := Blur | Fill | Inpaint | Remove.

(** [coverColor] is the CSS colour string the canvas parses; it is modelled
    by the opaque RGB triple it denotes. *)
Record Settings := mkSettings {
  blurRadius : Z;
  coverColor : Z * Z * Z;
  method : Method;
  opacity : Q
}.

(** [ctx.fillRect] with [globalAlpha = ga] and an opaque [fillStyle]:
    source-over compositing on every canvas pixel of the rectangle.  An
    assignment of [globalAlpha] outside [0,1] is ignored by the canvas. *)
Definition fillRect (c : Canvas) (ga : Q) (color : Z * Z * Z) (x0 y0 w h : Z) : Canvas :=
  let '(cr, cg, cb) := color in
  let a := if Qle_bool 0 ga && Qle_bool ga 1 then ga else 1%Q in
  mkImageData (img_width c) (img_height c) (fun j =>
    let X := pix_x (img_width c) j in
    let Y := pix_y (img_width c) j in
    if in_buf c j && in_rect x0 y0 w h X Y then
      let base := j - chan j in
      let ab := (inject_Z (img_data c (base + 3)) / 255)%Q in
      let ao := (a + ab * (1 - a))%Q in
      let k := chan j in
      if k =? 3 then to_uint8_clamp (Some (ao * 255)%Q)
      else
        let cs := if k =? 0 then cr else if k =? 1 then cg else cb in
        to_uint8_clamp (Some ((a * inject_Z cs + ab * inject_Z (img_data c j) * (1 - a)) / ao)%Q)
    else img_data c j).

(** [process] once the image is on the canvas [c]: [alphaAsset] is the
    outcome of [loadAlphaMap] ([None] when it rejects) and [rnd] the values of
    [Math.random()] used by the inpaint fallback. *)
Definition process (c : Canvas) (settings : Settings) (alphaAsset : option (list Q))
                   (rnd : Z -> Q) : Canvas :=
  (* [const { width, height } = canvas] *)
  let cw := img_width c in
  let ch := img_height c in
  let info := getWatermarkInfo cw ch in
  match method settings with
  | Remove | Inpaint =>
      match alphaAsset with
      | Some alphaMap =>
          let imageData := getImageData c 0 0 cw ch in
          let c1 := putImageData c (removeWatermarkWithAlphaMap imageData alphaMap info cw ch) 0 0 in
          applyBoxBlur c1 (x info) (y info) (width info) (height info) 3 2
      | None => applyInpaint c rnd (x info) (y info) (width info) (height info) cw ch
      end
  | Blur => applyBoxBlur c (x info) (y info) (width info) (height info) (blurRadius settings) 4
  | Fill => fillRect c (opacity settings) (coverColor settings) (x info) (y info) (width info) (height info)
  end.

(** ** The Neighbor-Sampling Reconstructor as the spec words it (section 4.4)

    A second reading of [removeWatermarkWithAlphaMap], after the spec:
    a pixel of the region is masked iff its opacity exceeds 0.05; a
    candidate at offset [(dx, dy)] of the ring of radius [radius] is accepted
    iff its distance lies in [radius - 1, radius + 1] and it is a pixel of
    the image outside the masked set; every candidate weighs
    [1 / distance^2]; rings grow from 1 to [max(width, height) + 8] until the
    weight reaches 8; each masked pixel gets the rounded weighted average of
    the ORIGINAL colours, or keeps its colour when nothing was accepted. *)
Module NsrSpec.

Definition masked (alphaMap : list Q) (w h row col : Z) : bool :=
  (0 <=? row) && (row <? h) && (0 <=? col) && (col <? w) &&
  Qlt_bool (1 # 20) (nth (Z.to_nat (row * w + col)) alphaMap 0%Q).

Definition accepted (alphaMap : list Q) (ox oy w h cw ch row col radius dx dy : Z) : bool :=
  let d2 := dx * dx + dy * dy in
  ((radius - 1) * (radius - 1) <=? d2) && (d2 <=? (radius + 1) * (radius + 1))
  && in_rect 0 0 cw ch (ox + col + dx) (oy + row + dy)
  && negb (masked alphaMap w h (row + dy) (col + dx)).

(** Channel [k] of the image pixel [(X, Y)]. *)
Definition sample (d : ImageData) (cw X Y k : Z) : Z := img_data d ((Y * cw + X) * 4 + k).

Definition Sums : Type := (Q * Q * Q * Q)%type.

Definition weightOf (s : Sums) : Q := let '(_, _, _, ws) := s in ws.

Definition visit (d : ImageData) (alphaMap : list Q) (ox oy w h cw ch row col radius : Z)
                 (s : Sums) (dx dy : Z) : Sums :=
  if accepted alphaMap ox oy w h cw ch row col radius dx dy then
    let wt := (1 / inject_Z (dx * dx + dy * dy))%Q in
    let X := ox + col + dx in
    let Y := oy + row + dy in
    let '(r, g, b, ws) := s in
    ((r + inject_Z (sample d cw X Y 0) * wt)%Q,
     (g + inject_Z (sample d cw X Y 1) * wt)%Q,
     (b + inject_Z (sample d cw X Y 2) * wt)%Q,
     (ws + wt)%Q)
  else s.

Definition ring (d : ImageData) (alphaMap : list Q) (ox oy w h cw ch row col radius : Z)
                (s : Sums) : Sums :=
  let stride := Z.max 1 (radius / 2) in
  fold_left (fun s dy =>
    fold_left (fun s dx => visit d alphaMap ox oy w h cw ch row col radius s dx dy)
      (zsteps (- radius) radius stride) s)
    (zsteps (- radius) radius stride) s.

Fixpoint rings (n : nat) (d : ImageData) (alphaMap : list Q) (ox oy w h cw ch row col radius : Z)
               (s : Sums) : Sums :=
  match n with
  | O => s
  | S n' =>
      if Qlt_bool (weightOf s) 8
      then rings n' d alphaMap ox oy w h cw ch row col (radius + 1)
                 (ring d alphaMap ox oy w h cw ch row col radius s)
      else s
  end.

Definition search (d : ImageData) (alphaMap : list Q) (ox oy w h cw ch row col : Z) : Sums :=
  rings (Z.to_nat (Z.max w h + 8)) d alphaMap ox oy w h cw ch row col 1 (0, 0, 0, 0)%Q.

Definition reconstruct (d : ImageData) (alphaMap : list Q) (region : WatermarkInfo)
                       (cw ch : Z) : Z -> Z :=
  let ox := x region in
  let oy := y region in
  let w := width region in
  let h := height region in
  fun i =>
    let col := pix_x cw i - ox in
    let row := pix_y cw i - oy in
    let k := chan i in
    if in_buf d i && (k <? 3) && masked alphaMap w h row col then
      let '(r, g, b, ws) := search d alphaMap ox oy w h cw ch row col in
      if Qlt_bool 0 ws
      then js_round ((if k =? 0 then r else if k =? 1 then g else b) / ws)
      else img_data d i
    else img_data d i.

End NsrSpec.

(** ** Reverse-Blend Reconstructor (spec section 4.3) *)

(** Modelled from the spec: the Reverse-Blend Reconstructor of section 4.3,
    an earlier variant of the "remove" method that has no implementation in
    [src/].  Per RGB channel: pixels with opacity below 0.002 are left as
    they are; otherwise the opacity is clamped to at most 0.99, the blend
    [observed = alpha * 255 + (1 - alpha) * original] is inverted, and the
    result is clamped to [0,255] and rounded to the nearest integer. *)
Definition reverseBlendChannel (alpha : Q) (observed : Z) : Z :=
  if Qlt_bool alpha (2 # 1000) then observed
  else
    let a := Qmin alpha (99 # 100) in
    let v := ((inject_Z observed - a * 255) / (1 - a))%Q in
    js_round (Qmax 0 (Qmin 255 v)).

(** Modelled from the spec: the reconstructor on one RGBA pixel; the alpha
    channel is left unchanged. *)
Definition reverseBlendPixel (alpha : Q) (p : Pixel) : Pixel :=
  let '(r, g, b, a) := p in
  (reverseBlendChannel alpha r, reverseBlendChannel alpha g,
   reverseBlendChannel alpha b, a).

(** Modelled from the spec: the assumed forward blend of a channel under the
    logo, as it lands in a pixel buffer (one byte, nearest integer). *)
Definition forwardBlend (alpha : Q) (original : Z) : Z :=
  js_round (alpha * 255 + (1 - alpha) * inject_Z original)%Q.

(** ** Relating the two readings of the reconstructor *)

(** The source's accumulator holding the spec's sums (no NaN). *)
Definition liftSums (s : NsrSpec.Sums) : NAcc :=
  let '(r, g, b, ws) := s in mkAcc (Some r) (Some g) (Some b) ws.

(** Index [i] of a canvas [cw] wide belongs to a masked pixel of the region
    at [(ox, oy)]. *)
Definition maskedPx (alphaMap : list Q) (ox oy w h cw i : Z) : bool :=
  NsrSpec.masked alphaMap w h (pix_y cw i - oy) (pix_x cw i - ox).

(** Two canvases of the same size that agree inside the rectangle. *)
Definition agree_rect (x0 y0 w h : Z) (c c' : Canvas) : Prop :=
  img_width c' = img_width c /\ img_height c' = img_height c /\
  forall j, in_buf c j && in_rect x0 y0 w h (pix_x (img_width c) j) (pix_y (img_width c) j) = true ->
    img_data c' j = img_data c j.

(** A buffer [d'] of [d]'s size that differs from [d] only at masked pixels
    of the region. *)
Definition unmasked_agree (d : ImageData) (alphaMap : list Q) (ox oy w h cw ch : Z)
           (d' : ImageData) : Prop :=
  img_width d' = cw /\ img_height d' = ch /\
  forall i, maskedPx alphaMap ox oy w h cw i = false -> img_data d' i = img_data d i.

(** The spec's sums are weighted averages of bytes. *)
Definition sumsBounded (s : NsrSpec.Sums) : Prop :=
  let '(r, g, b, ws) := s in
  (0 <= ws /\ 0 <= r <= 255 * ws /\ 0 <= g <= 255 * ws /\ 0 <= b <= 255 * ws)%Q.

(** Index [i] of [d] belongs to the image pixel [(X, Y)]. *)
Definition ownedBy (d : ImageData) (cw X Y i : Z) : bool :=
  in_buf d i && (pix_y cw i =? Y) && (pix_x cw i =? X).

(** Every index of [d'] holds either the original value or the spec's
    reconstructed value. *)
Definition nsrGood (d : ImageData) (alphaMap : list Q) (ox oy w h cw ch : Z)
           (d' : ImageData) : Prop :=
  img_width d' = cw /\ img_height d' = ch /\
  forall i, img_data d' i = img_data d i \/
            img_data d' i = NsrSpec.reconstruct d alphaMap (mkInfo 0 ox oy w h) cw ch i.

(** What may differ after the reconstructor: an RGB channel of an image
    pixel of the region whose alpha-map entry exceeds 0.05. *)
Definition nsrWritable (d : ImageData) (alphaMap : list Q) (ox oy w h cw j : Z) : Prop :=
  in_buf d j = true /\ chan j < 3 /\
  0 <= pix_y cw j - oy < h /\ 0 <= pix_x cw j - ox < w /\
  alpha_gt alphaMap ((pix_y cw j - oy) * w + (pix_x cw j - ox)) = true.

(** Every byte of channel [k] of the canvas pixels in the rectangle lies in
    [lo, hi]. *)
Definition chanBounded (c : Canvas) (x0 y0 w h k lo hi : Z) : Prop :=
  forall j, in_buf c j = true ->
    in_rect x0 y0 w h (pix_x (img_width c) j) (pix_y (img_width c) j) = true ->
    chan j = k -> lo <= img_data c j <= hi.

(** ** Loading the picture and the reference asset ([loadImageToCanvas],
    lines 110-192; [loadAlphaMap], lines 59-108)

    The browser is an oracle of outcomes: what loading a URL into a fresh
    [Image] gives ([onload] with the element, or [onerror]), what [fetch]
    gives, the URL [URL.createObjectURL] hands out, whether a fresh canvas has
    a 2d context, and the pixels of a [size x size] canvas after
    [drawImage(img, 0, 0, size, size)].  Each run yields the trace of the
    observable calls, in order, and its outcome. *)

(** The dimensions of a loaded [HTMLImageElement]. *)
Record ImgElem := mkImgElem {
  naturalWidth : Z;
  elWidth : Z;
  naturalHeight : Z;
  elHeight : Z
}.

(** A [fetch] response: [res.ok], [res.status] and the outcome of
    [res.blob()] ([None] when it rejects). *)
Record Response := mkResponse {
  ok : bool;
  status : Z;
  blob : option String.string
}.

Record Browser := mkBrowser {
  fetch : String.string -> option Response;
  loadImage : String.string -> bool -> option ImgElem;
  createObjectURL : String.string -> String.string;
  has2d : bool;
  drawScaled : ImgElem -> Z -> Z -> Z
}.

Inductive LoadEvent :=
| ImgLoad (src : String.string) (crossOrigin : bool)
| FetchCall (src : String.string)
| CreateObjectURL
| RevokeObjectURL.

(** [a || b] on numbers: [0] is falsy. *)
Definition jsOr (a b : Z) : Z := if a =? 0 then b else a.

(** [canvas.width = img.naturalWidth || img.width], and the same for the
    height. *)
Definition canvasSize (im : ImgElem) : Z * Z :=
  (jsOr (naturalWidth im) (elWidth im), jsOr (naturalHeight im) (elHeight im)).

(** The fetch-as-blob fallback of [loadImageToCanvas]; [.then(res =>
    res.blob())] does not look at [res.ok]. *)
Definition canvasBlobFallback (br : Browser) (src : String.string)
  : list LoadEvent * option (Z * Z) :=
  match fetch br src with
  | None => ([FetchCall src], None)
  | Some res =>
      match blob res with
      | None => ([FetchCall src], None)
      | Some b =>
          let blobUrl := createObjectURL br b in
          let t := [FetchCall src; CreateObjectURL; ImgLoad blobUrl false; RevokeObjectURL] in
          match loadImage br blobUrl false with
          | Some img2 => (t, Some (canvasSize img2))
          | None => (t, None)
          end
      end
  end.

(** [loadImageToCanvas]: the trace and either the canvas size it resolves
    with, or [None] when it rejects. *)
Definition loadImageToCanvas (br : Browser) (src : String.string)
  : list LoadEvent * option (Z * Z) :=
  let co := negb (String.prefix "data:" src) in
  match loadImage br src co with
  | Some img => ([ImgLoad src co], Some (canvasSize img))
  | None =>
      if co then
        match loadImage br src false with
        | Some img1b => ([ImgLoad src true; ImgLoad src false], Some (canvasSize img1b))
        | None =>
            let '(t, r) := canvasBlobFallback br src in
            (ImgLoad src true :: ImgLoad src false :: t, r)
        end
      else
        let '(t, r) := canvasBlobFallback br src in (ImgLoad src false :: t, r)
  end.

Inductive Outcome (A : Type) :=
| Resolved (a : A)
| Rejected (err : String.string).

Arguments Resolved {A} a.
Arguments Rejected {A} err.

(** [extractFromImg]: a fresh [size x size] canvas, the image drawn scaled
    onto it, and the alpha map of its pixels. *)
Definition extractFromImg (br : Browser) (size : Z) (img : ImgElem) : Outcome (list Q) :=
  if has2d br then
    let canvas := mkImageData size size (drawScaled br img size) in
    Resolved (calculateAlphaMap (getImageData canvas 0 0 size size))
  else Rejected "No 2d context".

(** [loadAlphaMap]: the promise of the blob path is returned from inside the
    [try] without being awaited, so only a failure of [fetch], of [res.ok] or
    of [res.blob()] reaches the [catch] and its direct-load fallback. *)
Definition loadAlphaMap (br : Browser) (src : String.string) (size : Z)
  : list LoadEvent * Outcome (list Q) :=
  let fallback (t : list LoadEvent) :=
    match loadImage br src true with
    | Some img => (t ++ [ImgLoad src true], extractFromImg br size img)
    | None => (t ++ [ImgLoad src true], Rejected ("Failed to load " ++ src))
    end in
  match fetch br src with
  | None => fallback [FetchCall src]
  | Some res =>
      if ok res then
        match blob res with
        | None => fallback [FetchCall src]
        | Some b =>
            let blobUrl := createObjectURL br b in
            let t := [FetchCall src; CreateObjectURL; ImgLoad blobUrl false; RevokeObjectURL] in
            match loadImage br blobUrl false with
            | Some img => (t, extractFromImg br size img)
            | None => (t, Rejected ("Failed to load blob for " ++ src))
            end
        end
      else fallback [FetchCall src]
  end.

(** The fetch phase of [loadAlphaMap] succeeds: [fetch] resolves with an ok
    response whose body is read. *)
Definition fetchPhaseOk (br : Browser) (src : String.string) : bool :=
  match fetch br src with
  | Some res => ok res && match blob res with Some _ => true | None => false end
  | None => false
  end.

(** Number of occurrences of a kind of event in a trace. *)
Definition countEv (P : LoadEvent -> bool) (t : list LoadEvent) : nat :=
  length (filter P t).

Definition isCreate (e : LoadEvent) : bool :=
  match e with CreateObjectURL => true | _ => false end.

Definition isRevoke (e : LoadEvent) : bool :=
  match e with RevokeObjectURL => true | _ => false end.

(** * Proofs *)

(** ** Numeric helpers *)

Lemma Qlt_bool_iff (a b : Q) : Qlt_bool a b = true <-> (a < b)%Q.
Proof.
  unfold Qlt_bool. rewrite negb_true_iff.
  split; intro H.
  - apply Qnot_le_lt. intro H'. apply Qle_bool_iff in H'. congruence.
  - destruct (Qle_bool b a) eqn:E; [|reflexivity].
    apply Qle_bool_iff in E. exfalso. apply (Qlt_not_le a b); assumption.
Qed.

Lemma Qlt_bool_false (a b : Q) : Qlt_bool a b = false <-> (b <= a)%Q.
Proof.
  unfold Qlt_bool. rewrite negb_false_iff. apply Qle_bool_iff.
Qed.

Lemma Qle_bool_false (a b : Q) : Qle_bool a b = false <-> (b < a)%Q.
Proof.
  split; intro H.
  - apply Qnot_le_lt. intro H'. apply Qle_bool_iff in H'. congruence.
  - destruct (Qle_bool a b) eqn:E; [|reflexivity].
    apply Qle_bool_iff in E. exfalso. apply (Qlt_not_le b a); assumption.
Qed.

(** [Math.round] is within one half of its argument. *)
Lemma js_round_bounds (q : Q) :
  (inject_Z (js_round q) <= q + (1 # 2) /\ q - (1 # 2) < inject_Z (js_round q))%Q.
Proof.
  unfold js_round. split.
  - apply Qfloor_le.
  - pose proof (Qlt_floor (q + (1 # 2))) as H.
    rewrite inject_Z_plus in H. unfold inject_Z at 2 in H. lra.
Qed.

(** An integral value in [0,255] is stored as it is. *)
Lemma to_uint8_clamp_int (q : Q) (n : Z) :
  (q == inject_Z n)%Q -> 0 <= n <= 255 -> to_uint8_clamp (Some q) = n.
Proof.
  intros Hq Hn. unfold to_uint8_clamp.
  destruct (Qle_bool q 0) eqn:E0.
  { apply Qle_bool_iff in E0. rewrite Hq in E0.
    unfold Qle, inject_Z in E0; simpl in E0. lia. }
  apply Qle_bool_false in E0. rewrite Hq in E0.
  unfold Qlt, inject_Z in E0; simpl in E0.
  destruct (Qle_bool 255 q) eqn:E1.
  { apply Qle_bool_iff in E1. rewrite Hq in E1.
    unfold Qle, inject_Z in E1; simpl in E1. lia. }
  assert (Hf : Qfloor q = n) by (rewrite Hq; apply Qfloor_Z).
  rewrite Hf.
  assert (He : Qlt_bool (q - inject_Z n) (1 # 2) = true).
  { apply Qlt_bool_iff. rewrite Hq. lra. }
  rewrite He. reflexivity.
Qed.

(** [1 / n] is positive for a positive integer [n]. *)
Lemma Q_one_div_pos (n : Z) : 0 < n -> (0 < 1 / inject_Z n)%Q.
Proof.
  intro Hn. apply Qlt_shift_div_l.
  - unfold Qlt; simpl; lia.
  - rewrite Qmult_0_l. reflexivity.
Qed.

(** ** Watermark locator *)

(** C4: [getWatermarkInfo W H] is the 96-pixel logo with margin 64 exactly
    when both dimensions exceed 1024, and the 48-pixel logo with margin 32
    otherwise; the region is [(W - margin - size, H - margin - size)] of side
    [size], with no clamping: an image narrower or lower than 80 pixels gets a
    negative origin and still a region. *)
Theorem getWatermarkInfo_policy (W H : Z) :
  (size (getWatermarkInfo W H) = 96 <-> 1024 < W /\ 1024 < H) /\
  (1024 < W /\ 1024 < H ->
     getWatermarkInfo W H = mkInfo 96 (W - 64 - 96) (H - 64 - 96) 96 96) /\
  (~ (1024 < W /\ 1024 < H) ->
     getWatermarkInfo W H = mkInfo 48 (W - 32 - 48) (H - 32 - 48) 48 48) /\
  (W < 80 -> x (getWatermarkInfo W H) < 0) /\
  (H < 80 -> y (getWatermarkInfo W H) < 0).
Proof.
  unfold getWatermarkInfo.
  destruct (1024 <? W) eqn:EW, (1024 <? H) eqn:EH; simpl;
    rewrite ?Z.ltb_lt, ?Z.ltb_ge in *;
    repeat split; intros; try lia; exfalso; lia.
Qed.

Lemma getWatermarkInfo_policy_witness :
  (~ (1024 < 50 /\ 1024 < 50) /\ 50 < 80) /\
  getWatermarkInfo 50 50 = mkInfo 48 (50 - 32 - 48) (50 - 32 - 48) 48 48 /\
  x (getWatermarkInfo 50 50) < 0.
Proof.
  split; [split; lia|].
  destruct (getWatermarkInfo_policy 50 50) as [_ [_ [H3 [H4 _]]]].
  split; [apply H3; lia | apply H4; lia].
Defined.

(** ** Alpha map builder *)

Lemma max3_bounds (a b c : Z) :
  0 <= a <= 255 -> 0 <= b <= 255 -> 0 <= c <= 255 -> 0 <= max3 a b c <= 255.
Proof. unfold max3. lia. Qed.

(** C6: for a reference buffer whose channels are bytes, the alpha map has
    [width * height] entries and entry [i] is [max(R, G, B) / 255] of pixel
    [i] (row-major), a value in [0,1]. *)
Theorem calculateAlphaMap_spec (bg : ImageData) :
  0 <= img_width bg -> 0 <= img_height bg ->
  (forall i, 0 <= i < img_len bg -> 0 <= img_data bg i <= 255) ->
  length (calculateAlphaMap bg) = Z.to_nat (img_width bg * img_height bg) /\
  forall i, 0 <= i < img_width bg * img_height bg ->
    exists q, nth_error (calculateAlphaMap bg) (Z.to_nat i) = Some q /\
      q = (max3 (img_data bg (i * 4)) (img_data bg (i * 4 + 1)) (img_data bg (i * 4 + 2)) # 255) /\
      (0 <= q <= 1)%Q.
Proof.
  intros Hw Hh Hb. unfold calculateAlphaMap. split.
  - rewrite length_map, length_seq. reflexivity.
  - intros i Hi. rewrite nth_error_map, nth_error_seq.
    assert (Hlt : Nat.ltb (Z.to_nat i) (Z.to_nat (img_width bg * img_height bg)) = true).
    { apply Nat.ltb_lt. lia. }
    rewrite Hlt. simpl. rewrite Z2Nat.id by lia.
    eexists; split; [reflexivity|]. split; [reflexivity|].
    unfold img_len in Hb.
    assert (Hm : 0 <= max3 (img_data bg (i * 4)) (img_data bg (i * 4 + 1))
                          (img_data bg (i * 4 + 2)) <= 255)
      by (apply max3_bounds; apply Hb; nia).
    unfold Qle; simpl. lia.
Qed.

Lemma calculateAlphaMap_spec_witness :
  let bg := mkImageData 1 1 (fun i => if i =? 1 then 51 else 0) in
  (0 <= img_width bg /\ 0 <= img_height bg /\
   (forall i, 0 <= i < img_len bg -> 0 <= img_data bg i <= 255)) /\
  nth_error (calculateAlphaMap bg) 0 = Some (51 # 255).
Proof.
  intro bg.
  assert (Hb : forall i, 0 <= i < img_len bg -> 0 <= img_data bg i <= 255).
  { intros i _. simpl. destruct (i =? 1); lia. }
  split; [split; [simpl; lia | split; [simpl; lia | exact Hb]]|].
  destruct (calculateAlphaMap_spec bg) as [_ H]; [simpl; lia | simpl; lia | exact Hb |].
  destruct (H 0) as [q [Hq [Hv _]]]; [simpl; lia|].
  change (Z.to_nat 0) with 0%nat in Hq.
  rewrite Hq, Hv. vm_compute. reflexivity.
Defined.

(** ** Border-sampling inpainter: the empty-sample exit *)

(** C9: when no border pixel is collected, [applyInpaint] returns before
    touching the canvas: no fill, no noise and no blur. *)
Theorem applyInpaint_no_samples (c : Canvas) (rnd : Z -> Q) (x0 y0 w h cw ch : Z) :
  borderPixels c x0 y0 w h cw ch = [] ->
  applyInpaint c rnd x0 y0 w h cw ch = c.
Proof.
  intro H. unfold applyInpaint. rewrite H. reflexivity.
Qed.

(** A region far outside a 4 x 4 canvas collects no border pixel. *)
Lemma applyInpaint_no_samples_witness :
  let c := mkImageData 4 4 (fun i => i) in
  borderPixels c 100 100 2 2 4 4 = [] /\
  applyInpaint c (fun _ => 0%Q) 100 100 2 2 4 4 = c.
Proof.
  intro c.
  assert (H : borderPixels c 100 100 2 2 4 4 = []) by (vm_compute; reflexivity).
  split; [exact H | apply applyInpaint_no_samples; exact H].
Defined.

(** ** Neighbor-sampling reconstructor: no weight at distance zero *)

(** C10: a candidate that reaches the weight computation for a masked
    target pixel has a nonzero squared distance, so its weight
    [1 / (dist * dist)] is a positive rational: the only zero offset is
    [(0, 0)], which rings of radius at least 2 reject by distance and the
    radius-1 ring rejects because the target itself is masked. *)
Theorem nsrCandidate_weight_pos (mask : Z -> bool) (ox oy w h cw ch row col radius dx dy idx : Z)
        (weight : Q) :
  0 <= row < h -> 0 <= col < w -> mask (row * w + col) = true -> 1 <= radius ->
  nsrCandidate mask ox oy w h cw ch row col radius dx dy = Some (idx, weight) ->
  0 < dx * dx + dy * dy /\ (0 < weight)%Q.
Proof.
  intros Hr Hc Hm Hrad Hcand.
  assert (Hd : 0 < dx * dx + dy * dy).
  { destruct (Z.eq_dec (dx * dx + dy * dy) 0) as [E|E]; [|nia].
    assert (dx = 0 /\ dy = 0) as [-> ->] by nia.
    exfalso. unfold nsrCandidate in Hcand. simpl in Hcand.
    destruct (0 <? (radius - 1) * (radius - 1)) eqn:E1; [discriminate|].
    apply Z.ltb_ge in E1. assert (radius = 1) as -> by nia. simpl in Hcand.
    rewrite !Z.add_0_r in Hcand.
    replace ((0 <=? row) && (row <? h) && (0 <=? col) && (col <? w)) with true in Hcand
      by (symmetry; rewrite !andb_true_iff, !Z.leb_le, !Z.ltb_lt; lia).
    rewrite Hm in Hcand. discriminate. }
  split; [exact Hd|].
  unfold nsrCandidate in Hcand.
  repeat match type of Hcand with
         | context [if ?b then _ else _] => destruct b
         end; try discriminate;
  injection Hcand as _ <-; apply Q_one_div_pos; exact Hd.
Qed.

Lemma nsrCandidate_weight_pos_witness :
  let mask := fun i => i =? 0 in
  (0 <= 0 < 2 /\ 0 <= 0 < 2 /\ mask (0 * 2 + 0) = true /\ 1 <= 1 /\
   nsrCandidate mask 3 3 2 2 8 8 0 0 1 1 0 = Some ((3 * 8 + 4) * 4, 1%Q)) /\
  (0 < 1 * 1 + 0 * 0 /\ (0 < 1)%Q).
Proof.
  intro mask.
  assert (Hc : nsrCandidate mask 3 3 2 2 8 8 0 0 1 1 0 = Some ((3 * 8 + 4) * 4, 1%Q))
    by (vm_compute; reflexivity).
  split; [repeat split; try lia; try reflexivity; exact Hc|].
  exact (nsrCandidate_weight_pos mask 3 3 2 2 8 8 0 0 1 1 0 _ 1%Q
           ltac:(lia) ltac:(lia) eq_refl ltac:(lia) Hc).
Defined.

(** ** Reverse-blend round trip *)

(** Bounds of a clamp: [max(0, min(255, v))] stays within [d] of any [o] of
    [0,255] that [v] is within [d] of. *)
Lemma clamp255_close (v o d : Q) :
  (0 <= o <= 255)%Q -> (o - d <= v <= o + d)%Q -> (0 <= d)%Q ->
  (o - d <= Qmax 0 (Qmin 255 v) <= o + d)%Q.
Proof.
  intros Ho Hv Hd.
  destruct (Q.min_spec_le 255 v) as [[H1 H2]|[H1 H2]]; rewrite H2.
  - destruct (Q.max_spec_le 0 255) as [[H3 H4]|[H3 H4]]; rewrite H4; lra.
  - destruct (Q.max_spec_le 0 v) as [[H3 H4]|[H3 H4]]; rewrite H4; lra.
Qed.

(** An integer strictly between -2 and 2 is at most 1 in absolute value. *)
Lemma Z_abs_le1_of_Q (n : Z) :
  (-2 < inject_Z n < 2)%Q -> Z.abs n <= 1.
Proof.
  intros [H1 H2]. unfold Qlt, inject_Z in H1, H2. simpl in H1, H2. lia.
Qed.

(** C3, corrected: when the blended channel is stored as a byte, the
    reverse blend recovers the original within [1/(2(1-alpha)) + 1/2]: within
    [+-1] for [alpha < 2/3] (and for [alpha < 0.002], where the pixel is left
    as it is); the RGB channels are inverted independently and the alpha
    channel is kept. *)
Theorem reverseBlend_roundtrip (alpha : Q) (original : Z) :
  (0 <= alpha < 99 # 100)%Q -> 0 <= original <= 255 ->
  (- ((1 # 2) / (1 - alpha) + (1 # 2))
     <= inject_Z (reverseBlendChannel alpha (forwardBlend alpha original) - original)
     <= (1 # 2) / (1 - alpha) + (1 # 2))%Q /\
  ((alpha < 2 # 3)%Q ->
     Z.abs (reverseBlendChannel alpha (forwardBlend alpha original) - original) <= 1) /\
  (forall r g b a, reverseBlendPixel alpha (r, g, b, a) =
     (reverseBlendChannel alpha r, reverseBlendChannel alpha g,
      reverseBlendChannel alpha b, a)).
Proof.
  intros Ha Ho.
  set (O := inject_Z original).
  assert (HO : (0 <= O <= 255)%Q).
  { unfold O, Qle, inject_Z; simpl. lia. }
  set (t := (alpha * 255 + (1 - alpha) * O)%Q).
  set (obs := forwardBlend alpha original).
  assert (Hobs : (t - (1 # 2) < inject_Z obs <= t + (1 # 2))%Q).
  { unfold obs, forwardBlend. fold O. fold t.
    destruct (js_round_bounds t). split; assumption. }
  assert (H1a : (0 < 1 - alpha)%Q) by lra.
  set (D := ((1 # 2) / (1 - alpha))%Q).
  assert (HD : (1 # 2 <= D)%Q).
  { unfold D. apply Qle_shift_div_l; [exact H1a | lra]. }
  assert (Hmain : (- (D + (1 # 2)) <= inject_Z (reverseBlendChannel alpha obs - original)
                   <= D + (1 # 2))%Q /\
                  (Z.abs (reverseBlendChannel alpha obs - original) <= 1 \/ (2 # 3 <= alpha)%Q)).
  { unfold reverseBlendChannel.
    destruct (Qlt_bool alpha (2 # 1000)) eqn:Es.
    - (* the pixel is left as it is *)
      apply Qlt_bool_iff in Es.
      assert (Hp : (0 <= alpha * (255 - O) <= (2 # 1000) * 255)%Q).
      { split.
        - apply Qmult_le_0_compat; lra.
        - assert (HaO : (0 <= alpha * O)%Q) by (apply Qmult_le_0_compat; lra).
          assert (Ha255 : (alpha * 255 <= (2 # 1000) * 255)%Q)
            by (apply Qmult_le_compat_r; lra).
          setoid_replace (alpha * (255 - O))%Q with (alpha * 255 - alpha * O)%Q by ring.
          lra. }
      assert (Hq : (-2 < inject_Z (obs - original) < 2)%Q).
      { unfold Z.sub; rewrite inject_Z_plus, inject_Z_opp. fold O. unfold t in Hobs. lra. }
      pose proof (Z_abs_le1_of_Q _ Hq) as Habs.
      split; [|left; exact Habs].
      assert (Hq' : (-1 <= inject_Z (obs - original) <= 1)%Q).
      { unfold Qle, inject_Z; simpl. lia. }
      lra.
    - apply Qlt_bool_false in Es.
      set (a := Qmin alpha (99 # 100)).
      assert (Ha' : (a == alpha)%Q) by (apply Q.min_l; lra).
      set (v := ((inject_Z obs - a * 255) / (1 - a))%Q).
      assert (Hv : (v == O + (inject_Z obs - t) / (1 - alpha))%Q).
      { unfold v, t. rewrite Ha'. field. lra. }
      assert (He : (- D <= (inject_Z obs - t) / (1 - alpha) <= D)%Q).
      { unfold D. split.
        - apply Qle_shift_div_l; [exact H1a|].
          setoid_replace (- ((1 # 2) / (1 - alpha)) * (1 - alpha))%Q with (- (1 # 2))%Q
            by (field; lra). lra.
        - apply Qle_shift_div_r; [exact H1a|].
          setoid_replace ((1 # 2) / (1 - alpha) * (1 - alpha))%Q with (1 # 2)%Q
            by (field; lra). lra. }
      assert (Hcl : (O - D <= Qmax 0 (Qmin 255 v) <= O + D)%Q).
      { apply clamp255_close; [exact HO | rewrite Hv; lra | lra]. }
      destruct (js_round_bounds (Qmax 0 (Qmin 255 v))) as [Hr1 Hr2].
      assert (Hb : (- (D + (1 # 2)) <= inject_Z (js_round (Qmax 0 (Qmin 255 v)) - original)
                    <= D + (1 # 2))%Q).
      { unfold Z.sub; rewrite inject_Z_plus, inject_Z_opp. fold O. lra. }
      split; [exact Hb|].
      destruct (Qlt_le_dec alpha (2 # 3)) as [Hl|Hl]; [left|right; exact Hl].
      apply Z_abs_le1_of_Q.
      assert (HD3 : (D < 3 # 2)%Q).
      { unfold D. apply Qlt_shift_div_r; [exact H1a | lra]. }
      lra. }
  destruct Hmain as [Hb Hint]. fold D. split; [exact Hb|]. split.
  - intro Hl. destruct Hint as [H|H]; [exact H | exfalso; lra].
  - intros. reflexivity.
Qed.

Lemma reverseBlend_roundtrip_witness :
  ((0 <= 1 # 2 < 99 # 100)%Q /\ 0 <= 100 <= 255 /\ (1 # 2 < 2 # 3)%Q) /\
  Z.abs (reverseBlendChannel (1 # 2) (forwardBlend (1 # 2) 100) - 100) <= 1.
Proof.
  assert (Ha : (0 <= 1 # 2 < 99 # 100)%Q) by (split; unfold Qle, Qlt; simpl; lia).
  assert (Hl : (1 # 2 < 2 # 3)%Q) by (unfold Qlt; simpl; lia).
  split; [split; [exact Ha | split; [lia | exact Hl]]|].
  destruct (reverseBlend_roundtrip (1 # 2) 100 Ha ltac:(lia)) as [_ [H _]].
  exact (H Hl).
Defined.

(** C3 fails as stated: at opacity [250/255 < 0.99] (a value the alpha map
    takes) the original 100 is blended into the byte 252, which the
    reconstructor maps to 102. *)
Lemma reverseBlend_byte_roundtrip_cex :
  (250 # 255 < 99 # 100)%Q /\ forwardBlend (250 # 255) 100 = 252 /\
  reverseBlendChannel (250 # 255) (forwardBlend (250 # 255) 100) = 102.
Proof.
  split; [unfold Qlt; simpl; lia|].
  split; vm_compute; reflexivity.
Qed.

(** ** Pixel indices *)

Lemma pix_decode (W X Y k : Z) :
  0 <= X < W -> 0 <= k < 4 ->
  pix_x W ((Y * W + X) * 4 + k) = X /\ pix_y W ((Y * W + X) * 4 + k) = Y /\
  chan ((Y * W + X) * 4 + k) = k.
Proof.
  intros HX Hk. unfold pix_x, pix_y, chan.
  assert (H4 : ((Y * W + X) * 4 + k) / 4 = Y * W + X).
  { rewrite Z.div_add_l by lia. rewrite (Z.div_small k 4) by lia. lia. }
  rewrite H4.
  replace (Y * W + X) with (X + Y * W) by ring.
  split; [|split].
  - rewrite Z.mod_add by lia. apply Z.mod_small. lia.
  - rewrite Z.div_add by lia. rewrite Z.div_small by lia. lia.
  - replace ((X + Y * W) * 4 + k) with (k + (X + Y * W) * 4) by ring.
    rewrite Z.mod_add by lia. apply Z.mod_small. lia.
Qed.

(** Every index of a buffer [W] wide is the index of its pixel and channel. *)
Lemma pix_encode (W i : Z) :
  0 < W -> i = (pix_y W i * W + pix_x W i) * 4 + chan i.
Proof.
  intro HW. unfold pix_x, pix_y, chan.
  pose proof (Z.div_mod i 4 ltac:(lia)) as H1.
  pose proof (Z.div_mod (i / 4) W ltac:(lia)) as H2.
  lia.
Qed.

Lemma pix_bounds (W i : Z) :
  0 < W -> 0 <= pix_x W i < W /\ 0 <= chan i < 4.
Proof.
  intro HW. unfold pix_x, chan. split; apply Z.mod_pos_bound; lia.
Qed.

(** ** Border-sampling inpainter: the fill *)

Lemma edgeFactor_nonneg (w h px py : Z) :
  0 <= px < w -> 0 <= py < h -> (0 <= edgeFactor w h px py)%Q.
Proof.
  intros Hx Hy. unfold edgeFactor.
  apply Qle_shift_div_l.
  - unfold Qlt, Qmult, inject_Z; simpl. lia.
  - rewrite Qmult_0_l. unfold Qle, inject_Z; simpl. lia.
Qed.

(** C2, corrected: every filled pixel of the [w x h] region is, per RGB
    channel, the byte of [clamp_[0,255](mean + noise)] with one [noise] for
    the three channels, [|noise| <= 6 * min(edgeFactor, 1) <= 6]; the noise is
    zero on the first row and the first column of the region (edge factor 0)
    and may reach its full amplitude 6 inside; the alpha byte is 255. *)
Theorem inpaintFill_pixel (avg : Q * Q * Q * Q) (rnd : Z -> Q) (w h px py : Z) :
  0 <= px < w -> 0 <= py < h -> (0 <= rnd (py * w + px)%Z < 1)%Q ->
  let noise := inpaintNoise (rnd (py * w + px)) w h px py in
  let i := (py * w + px) * 4 in
  (- (6 * Qmin (edgeFactor w h px py) 1) <= noise <= 6 * Qmin (edgeFactor w h px py) 1)%Q /\
  (- 6 <= noise <= 6)%Q /\
  (px = 0 \/ py = 0 -> (noise == 0)%Q) /\
  img_data (inpaintFill avg rnd w h) (i + 3) = 255 /\
  (let '(a0, a1, a2, _) := avg in
   img_data (inpaintFill avg rnd w h) i = to_uint8_clamp (Some (Qmin 255 (Qmax 0 (a0 + noise)))) /\
   img_data (inpaintFill avg rnd w h) (i + 1) = to_uint8_clamp (Some (Qmin 255 (Qmax 0 (a1 + noise)))) /\
   img_data (inpaintFill avg rnd w h) (i + 2) = to_uint8_clamp (Some (Qmin 255 (Qmax 0 (a2 + noise))))).
Proof.
  intros Hx Hy Hu noise i.
  set (m := Qmin (edgeFactor w h px py) 1).
  assert (Hm : (0 <= m <= 1)%Q).
  { unfold m. pose proof (edgeFactor_nonneg w h px py Hx Hy).
    destruct (Q.min_spec_le (edgeFactor w h px py) 1) as [[H1 H2]|[H1 H2]];
      rewrite H2; lra. }
  assert (Hn : (- (6 * m) <= noise <= 6 * m)%Q).
  { unfold noise, inpaintNoise. fold m.
    set (u := rnd (py * w + px)). fold u in Hu.
    assert (A1 : ((-6) * m <= (12 * (u - (1 # 2))) * m)%Q)
      by (apply Qmult_le_compat_r; lra).
    assert (A2 : ((12 * (u - (1 # 2))) * m <= 6 * m)%Q)
      by (apply Qmult_le_compat_r; lra).
    lra. }
  split; [exact Hn|]. split.
  { assert (H6 : (6 * m <= 6)%Q).
    { setoid_replace 6%Q with (6 * 1)%Q at 2 by reflexivity.
      apply Qmult_le_l; lra. }
    lra. }
  split.
  { intro H0. unfold noise, inpaintNoise.
    assert (He : (edgeFactor w h px py == 0)%Q).
    { unfold edgeFactor.
      replace (Z.min (Z.min px (w - px)) (Z.min py (h - py))) with 0 by lia.
      unfold Qdiv. apply Qmult_0_l. }
    rewrite He. rewrite Q.min_l by lra. ring. }
  assert (Hi : forall k, 0 <= k < 4 -> 0 <= i + k < w * h * 4).
  { intros k Hk. unfold i. nia. }
  destruct (pix_decode w px py 0 Hx ltac:(lia)) as [Ex0 [Ey0 Ec0]].
  destruct (pix_decode w px py 1 Hx ltac:(lia)) as [Ex1 [Ey1 Ec1]].
  destruct (pix_decode w px py 2 Hx ltac:(lia)) as [Ex2 [Ey2 Ec2]].
  destruct (pix_decode w px py 3 Hx ltac:(lia)) as [Ex3 [Ey3 Ec3]].
  rewrite Z.add_0_r in Ex0, Ey0, Ec0.
  destruct avg as [[[a0 a1] a2] a3].
  unfold inpaintFill. simpl img_data. fold i in Ex0, Ey0, Ec0, Ex1, Ey1, Ec1,
    Ex2, Ey2, Ec2, Ex3, Ey3, Ec3.
  pose proof (Hi 0 ltac:(lia)) as Hi0. pose proof (Hi 1 ltac:(lia)) as Hi1.
  pose proof (Hi 2 ltac:(lia)) as Hi2. pose proof (Hi 3 ltac:(lia)) as Hi3.
  rewrite Z.add_0_r in Hi0.
  repeat match goal with
         | |- context [(0 <=? ?a) && (?a <? ?b)] =>
             replace ((0 <=? a) && (a <? b)) with true
               by (symmetry; apply andb_true_iff; split; [apply Z.leb_le | apply Z.ltb_lt]; lia)
         end.
  rewrite Ex0, Ey0, Ec0, Ex1, Ey1, Ec1, Ex2, Ey2, Ec2, Ex3, Ey3, Ec3.
  simpl. repeat split; reflexivity.
Qed.

Lemma inpaintFill_pixel_witness :
  (0 <= 0 < 48 /\ 0 <= 0 < 48 /\ (0 <= (fun _ : Z => 0%Q) (0 * 48 + 0)%Z < 1)%Q) /\
  (inpaintNoise 0 48 48 0 0 == 0)%Q.
Proof.
  assert (Hu : (0 <= (fun _ : Z => 0%Q) (0 * 48 + 0)%Z < 1)%Q)
    by (simpl; split; unfold Qle, Qlt; simpl; lia).
  split; [split; [lia | split; [lia | exact Hu]]|].
  destruct (inpaintFill_pixel (100, 100, 100, 255)%Q (fun _ => 0%Q) 48 48 0 0
              ltac:(lia) ltac:(lia) Hu) as [_ [_ [H _]]].
  exact (H (or_introl eq_refl)).
Defined.

(** C2 fails as stated: with the mean 100 and the draw [Math.random() = 0],
    the corner pixel [(0, 0)] of a 48 x 48 region keeps the mean unperturbed
    while the centre pixel [(24, 24)] is moved by the full amplitude 6. *)
Lemma inpaintFill_edge_unperturbed_cex :
  img_data (inpaintFill (100, 100, 100, 255)%Q (fun _ => 0%Q) 48 48) 0 = 100 /\
  img_data (inpaintFill (100, 100, 100, 255)%Q (fun _ => 0%Q) 48 48) ((24 * 48 + 24) * 4) = 94.
Proof. split; vm_compute; reflexivity. Qed.

(** ** Box blur: locality *)

Section BoxBlurFrame.

Variables (x0 y0 w h r : Z).

Lemma putImageData_dims (c : Canvas) (d : ImageData) (dx dy : Z) :
  img_width (putImageData c d dx dy) = img_width c /\
  img_height (putImageData c d dx dy) = img_height c.
Proof. split; reflexivity. Qed.

Lemma blur_passes_dims (n : nat) (c : Canvas) :
  img_width (blur_passes n c x0 y0 w h r) = img_width c /\
  img_height (blur_passes n c x0 y0 w h r) = img_height c.
Proof.
  revert c. induction n as [|n IH]; intro c; [split; reflexivity|].
  simpl. destruct (IH (putImageData c (blur_pass (getImageData c x0 y0 w h) r) x0 y0))
    as [E1 E2].
  rewrite E1, E2. split; reflexivity.
Qed.

Lemma blur_passes_frame (n : nat) (c : Canvas) (j : Z) :
  in_buf c j && in_rect x0 y0 w h (pix_x (img_width c) j) (pix_y (img_width c) j) = false ->
  img_data (blur_passes n c x0 y0 w h r) j = img_data c j.
Proof.
  revert c. induction n as [|n IH]; intros c Hj; [reflexivity|].
  simpl. rewrite IH; [|exact Hj].
  simpl. unfold in_buf, img_len in *. simpl. rewrite Hj. reflexivity.
Qed.

Hypotheses (Hw : 0 < w) (Hh : 0 < h).

Lemma getImageData_agree (c c' : Canvas) :
  agree_rect x0 y0 w h c c' -> getImageData c' x0 y0 w h = getImageData c x0 y0 w h.
Proof.
  intros [EW [EH Ha]]. unfold getImageData. rewrite EW, EH. f_equal.
  apply functional_extensionality. intro i.
  destruct ((0 <=? i) && (i <? w * h * 4)) eqn:Ei; [|reflexivity].
  apply andb_true_iff in Ei. destruct Ei as [Ei1 Ei2].
  apply Z.leb_le in Ei1. apply Z.ltb_lt in Ei2.
  destruct (in_rect 0 0 (img_width c) (img_height c) (x0 + pix_x w i) (y0 + pix_y w i)) eqn:Er;
    [|reflexivity].
  apply Ha.
  unfold in_rect in Er. rewrite !andb_true_iff, !Z.leb_le, !Z.ltb_lt in Er.
  destruct (pix_bounds w i Hw) as [Hpx Hc].
  assert (Hpy : 0 <= pix_y w i < h).
  { unfold pix_y, pix_x in *.
    pose proof (Z.div_mod i 4 ltac:(lia)).
    pose proof (Z.mod_pos_bound i 4 ltac:(lia)).
    pose proof (Z.div_mod (i / 4) w ltac:(lia)).
    pose proof (Z.mod_pos_bound (i / 4) w Hw).
    nia. }
  destruct (pix_decode (img_width c) (x0 + pix_x w i) (y0 + pix_y w i) (chan i)
              ltac:(lia) Hc) as [D1 [D2 _]].
  rewrite D1, D2.
  unfold in_buf, img_len, in_rect.
  rewrite !andb_true_iff, !Z.leb_le, !Z.ltb_lt.
  split; [split; nia | lia].
Qed.

Lemma blur_passes_agree (n : nat) (c c' : Canvas) :
  agree_rect x0 y0 w h c c' -> agree_rect x0 y0 w h (blur_passes n c x0 y0 w h r) (blur_passes n c' x0 y0 w h r).
Proof.
  revert c c'. induction n as [|n IH]; intros c c' Ha; [exact Ha|].
  simpl. apply IH.
  rewrite (getImageData_agree c c' Ha).
  destruct Ha as [EW [EH Ha]].
  split; [exact EW|]. split; [exact EH|].
  intros j Hj. simpl in Hj |- *. unfold in_buf, img_len in Hj |- *. simpl in Hj |- *.
  rewrite EW, EH. rewrite Hj. reflexivity.
Qed.

End BoxBlurFrame.

(** ** Solid fill *)

(** At [globalAlpha = 1] the fill leaves no blending residue: every canvas
    pixel of the rectangle becomes the opaque cover colour. *)
Lemma fillRect_opaque (c : Canvas) (ga : Q) (cr cg cb x0 y0 w h j : Z) :
  (ga == 1)%Q -> 0 <= cr <= 255 -> 0 <= cg <= 255 -> 0 <= cb <= 255 ->
  in_buf c j && in_rect x0 y0 w h (pix_x (img_width c) j) (pix_y (img_width c) j) = true ->
  img_data (fillRect c ga (cr, cg, cb) x0 y0 w h) j =
    (if chan j =? 3 then 255 else if chan j =? 0 then cr else if chan j =? 1 then cg else cb).
Proof.
  intros Hga Hr Hg Hb Hj. unfold fillRect. simpl img_data. rewrite Hj.
  set (a := if Qle_bool 0 ga && Qle_bool ga 1 then ga else 1%Q).
  assert (Ha : (a == 1)%Q) by (unfold a; destruct (Qle_bool 0 ga && Qle_bool ga 1); [exact Hga | reflexivity]).
  set (ab := (inject_Z (img_data c (j - chan j + 3)) / 255)%Q).
  destruct (chan j =? 3).
  - apply to_uint8_clamp_int; [|lia]. rewrite Ha. unfold inject_Z. ring.
  - assert (Hk : forall cs, 0 <= cs <= 255 ->
              to_uint8_clamp (Some ((a * inject_Z cs + ab * inject_Z (img_data c j) * (1 - a))
                                     / (a + ab * (1 - a)))%Q) = cs).
    { intros cs Hcs. apply to_uint8_clamp_int; [|exact Hcs].
      rewrite Ha. setoid_replace (1 + ab * (1 - 1))%Q with 1%Q by ring. field. }
    destruct (chan j =? 0); [apply Hk; exact Hr|].
    destruct (chan j =? 1); apply Hk; assumption.
Qed.

Lemma fillRect_frame (c : Canvas) (ga : Q) (col : Z * Z * Z) (x0 y0 w h j : Z) :
  in_buf c j && in_rect x0 y0 w h (pix_x (img_width c) j) (pix_y (img_width c) j) = false ->
  img_data (fillRect c ga col x0 y0 w h) j = img_data c j.
Proof.
  intro Hj. unfold fillRect. destruct col as [[cr cg] cb]. simpl img_data. rewrite Hj. reflexivity.
Qed.

(** C7: the box blur keeps the canvas size, changes no pixel outside the
    region, and its result inside the region depends only on the region's
    own pixels (a canvas agreeing with [c] on the region is blurred to the
    same region); so a 500 x 500 image processed with [method = "blur"] and
    [blurRadius = 20] keeps every pixel outside the 48 x 48 square at
    [(420, 420)]. *)
Theorem applyBoxBlur_region_only (c : Canvas) (x0 y0 w h radius passes : Z) :
  img_width (applyBoxBlur c x0 y0 w h radius passes) = img_width c /\
  img_height (applyBoxBlur c x0 y0 w h radius passes) = img_height c /\
  (forall j, in_rect x0 y0 w h (pix_x (img_width c) j) (pix_y (img_width c) j) = false ->
     img_data (applyBoxBlur c x0 y0 w h radius passes) j = img_data c j) /\
  (0 < w -> 0 < h -> forall c', agree_rect x0 y0 w h c c' ->
     forall j, in_buf c j && in_rect x0 y0 w h (pix_x (img_width c) j) (pix_y (img_width c) j) = true ->
       img_data (applyBoxBlur c' x0 y0 w h radius passes) j =
       img_data (applyBoxBlur c x0 y0 w h radius passes) j) /\
  (img_width c = 500 -> img_height c = 500 ->
   forall (s : Settings) (alphaAsset : option (list Q)) (rnd : Z -> Q),
     method s = Blur -> blurRadius s = 20 ->
     forall j, in_rect 420 420 48 48 (pix_x 500 j) (pix_y 500 j) = false ->
       img_data (process c s alphaAsset rnd) j = img_data c j).
Proof.
  unfold applyBoxBlur.
  destruct (blur_passes_dims x0 y0 w h (Z.max 1 (radius / passes)) (Z.to_nat passes) c)
    as [E1 E2].
  split; [exact E1|]. split; [exact E2|]. split.
  { intros j Hj. apply blur_passes_frame. rewrite Hj. apply andb_false_r. }
  split.
  { intros Hw Hh c' Ha j Hj.
    destruct (blur_passes_agree x0 y0 w h (Z.max 1 (radius / passes)) Hw
                (Z.to_nat passes) c c' Ha) as [_ [_ H]].
    apply H. unfold in_buf, img_len. rewrite E1, E2. exact Hj. }
  intros EW EH s alphaAsset rnd Hm Hr j Hj.
  unfold process. rewrite Hm, EW, EH.
  replace (getWatermarkInfo 500 500) with (mkInfo 48 420 420 48 48) by reflexivity.
  cbn [x y width height]. rewrite Hr. unfold applyBoxBlur. apply blur_passes_frame.
  rewrite EW, Hj. apply andb_false_r.
Qed.

Lemma applyBoxBlur_region_only_witness :
  let c := mkImageData 4 4 (fun i => i) in
  in_rect 1 1 2 2 (pix_x (img_width c) 0) (pix_y (img_width c) 0) = false /\
  img_data (applyBoxBlur c 1 1 2 2 3 2) 0 = img_data c 0.
Proof.
  intro c.
  assert (H : in_rect 1 1 2 2 (pix_x (img_width c) 0) (pix_y (img_width c) 0) = false)
    by reflexivity.
  split; [exact H|].
  destruct (applyBoxBlur_region_only c 1 1 2 2 3 2) as [_ [_ [Hf _]]].
  exact (Hf 0 H).
Defined.

(** C8: at opacity 1 the solid fill makes every canvas pixel of the region
    exactly the (opaque) cover colour; a 2048 x 2048 all-white image
    processed with [method = "fill"], black and opacity 1 becomes a black
    96 x 96 square at [(1888, 1888)] on an unchanged white image. *)
Theorem fill_opacity_one (c : Canvas) :
  (forall (ga : Q) (cr cg cb x0 y0 w h j : Z),
     (ga == 1)%Q -> 0 <= cr <= 255 -> 0 <= cg <= 255 -> 0 <= cb <= 255 ->
     in_buf c j && in_rect x0 y0 w h (pix_x (img_width c) j) (pix_y (img_width c) j) = true ->
     img_data (fillRect c ga (cr, cg, cb) x0 y0 w h) j =
       (if chan j =? 3 then 255 else if chan j =? 0 then cr else if chan j =? 1 then cg else cb)) /\
  (img_width c = 2048 -> img_height c = 2048 ->
   (forall j, in_buf c j = true -> img_data c j = 255) ->
   forall (s : Settings) (alphaAsset : option (list Q)) (rnd : Z -> Q),
     method s = Fill -> coverColor s = (0, 0, 0) -> (opacity s == 1)%Q ->
     forall j, in_buf c j = true ->
       img_data (process c s alphaAsset rnd) j =
         if in_rect 1888 1888 96 96 (pix_x 2048 j) (pix_y 2048 j)
         then (if chan j =? 3 then 255 else 0) else 255).
Proof.
  split.
  { intros. apply fillRect_opaque; assumption. }
  intros EW EH Hwhite s alphaAsset rnd Hm Hc Ho j Hj.
  unfold process. rewrite Hm, EW, EH.
  replace (getWatermarkInfo 2048 2048) with (mkInfo 96 1888 1888 96 96) by reflexivity.
  cbn [x y width height]. rewrite Hc.
  destruct (in_rect 1888 1888 96 96 (pix_x 2048 j) (pix_y 2048 j)) eqn:Er.
  - rewrite fillRect_opaque; [| exact Ho | lia | lia | lia | rewrite EW, Hj, Er; reflexivity].
    destruct (chan j =? 3); [reflexivity|].
    destruct (chan j =? 0); [reflexivity|]. destruct (chan j =? 1); reflexivity.
  - rewrite fillRect_frame; [apply Hwhite; exact Hj|].
    rewrite EW, Er. apply andb_false_r.
Qed.

Lemma fill_opacity_one_witness :
  let c := mkImageData 2 2 (fun _ => 255) in
  ((1 == 1)%Q /\ in_buf c 0 && in_rect 0 0 1 1 (pix_x (img_width c) 0) (pix_y (img_width c) 0) = true) /\
  img_data (fillRect c 1 (0, 0, 0) 0 0 1 1) 0 = 0.
Proof.
  intro c.
  assert (Hj : in_buf c 0 && in_rect 0 0 1 1 (pix_x (img_width c) 0) (pix_y (img_width c) 0) = true)
    by reflexivity.
  split; [split; [reflexivity | exact Hj]|].
  destruct (fill_opacity_one c) as [H _].
  rewrite (H 1%Q 0 0 0 0 0 1 1 0 (Qeq_refl 1) ltac:(lia) ltac:(lia) ltac:(lia) Hj).
  reflexivity.
Defined.

(** ** Neighbor-sampling reconstructor: the mask *)

Lemma in_zrange (lo hi v : Z) : In v (zrange lo hi) <-> lo <= v < hi.
Proof.
  unfold zrange. rewrite in_map_iff. split.
  - intros [k [<- Hk]]. apply in_seq in Hk. lia.
  - intro Hv. exists (Z.to_nat (v - lo)). split; [lia|]. apply in_seq. lia.
Qed.

Lemma fold_set_true {A : Type} (L : list A) (g : A -> Z) (cond : A -> bool)
      (m : Z -> bool) (j : Z) :
  fold_left (fun m e => if cond e then updb m (g e) true else m) L m j =
  m j || existsb (fun e => cond e && (g e =? j)) L.
Proof.
  revert m. induction L as [|e L IH]; intro m; simpl; [rewrite orb_false_r; reflexivity|].
  rewrite IH. destruct (cond e); simpl.
  - unfold updb. rewrite (Z.eqb_sym (g e) j).
    destruct (j =? g e); simpl; rewrite ?orb_true_r; reflexivity.
  - reflexivity.
Qed.

Lemma buildMask_exists (alphaMap : list Q) (w h j : Z) :
  buildMask alphaMap w h j =
  existsb (fun row => existsb (fun col =>
    alpha_gt alphaMap (row * w + col) && (row * w + col =? j)) (zrange 0 w)) (zrange 0 h).
Proof.
  unfold buildMask.
  assert (H : forall rows (m : Z -> bool),
    fold_left (fun m row =>
      fold_left (fun m col =>
        if alpha_gt alphaMap (row * w + col) then updb m (row * w + col) true else m)
        (zrange 0 w) m) rows m j =
    m j || existsb (fun row => existsb (fun col =>
      alpha_gt alphaMap (row * w + col) && (row * w + col =? j)) (zrange 0 w)) rows).
  { induction rows as [|row rows IH]; intro m; simpl; [symmetry; apply orb_false_r|].
    rewrite IH.
    rewrite (fold_set_true (zrange 0 w) (fun col => row * w + col)
               (fun col => alpha_gt alphaMap (row * w + col))).
    rewrite orb_assoc. reflexivity. }
  rewrite H. reflexivity.
Qed.

(** The mask of the source is the spec's "opacity exceeds 0.05" on an alpha
    map of the region's size. *)
Lemma buildMask_masked (alphaMap : list Q) (w h r c : Z) :
  length alphaMap = Z.to_nat (w * h) -> 0 <= r < h -> 0 <= c < w ->
  buildMask alphaMap w h (r * w + c) = NsrSpec.masked alphaMap w h r c.
Proof.
  intros Hlen Hr Hc. rewrite buildMask_exists.
  assert (Hj : 0 <= r * w + c < w * h) by nia.
  assert (Ha : alpha_gt alphaMap (r * w + c) =
               Qlt_bool (1 # 20) (nth (Z.to_nat (r * w + c)) alphaMap 0%Q)).
  { unfold alpha_gt, alpha_at.
    replace (0 <=? r * w + c) with true by (symmetry; apply Z.leb_le; lia).
    rewrite (nth_error_nth' alphaMap 0%Q) by lia. reflexivity. }
  unfold NsrSpec.masked.
  replace ((0 <=? r) && (r <? h) && (0 <=? c) && (c <? w)) with true
    by (symmetry; rewrite !andb_true_iff, !Z.leb_le, !Z.ltb_lt; lia).
  simpl. rewrite <- Ha.
  destruct (alpha_gt alphaMap (r * w + c)) eqn:Eg.
  - apply existsb_exists. exists r. split; [apply in_zrange; lia|].
    apply existsb_exists. exists c. split; [apply in_zrange; lia|].
    rewrite Eg, Z.eqb_refl. reflexivity.
  - apply not_true_is_false. intro Hex.
    apply existsb_exists in Hex. destruct Hex as [r' [Hr' Hex]].
    apply existsb_exists in Hex. destruct Hex as [c' [Hc' Hex]].
    apply in_zrange in Hr'. apply in_zrange in Hc'.
    apply andb_true_iff in Hex. destruct Hex as [Hg He].
    apply Z.eqb_eq in He. rewrite He in Hg. congruence.
Qed.

(** ** Neighbor-sampling reconstructor: the source refines the spec reading *)

Lemma canvas_test (cw ch X Y : Z) :
  (Y <? 0) || (ch <=? Y) || (X <? 0) || (cw <=? X) = negb (in_rect 0 0 cw ch X Y).
Proof.
  unfold in_rect. simpl.
  rewrite (Z.ltb_antisym 0 Y), (Z.leb_antisym Y ch), (Z.ltb_antisym 0 X), (Z.leb_antisym X cw).
  destruct (0 <=? X), (X <? cw), (0 <=? Y), (Y <? ch); reflexivity.
Qed.

Section NsrRefinement.

Variables (d : ImageData) (alphaMap : list Q) (ox oy w h cw ch : Z).

Hypotheses (Hcw : img_width d = cw) (Hch : img_height d = ch)
  (Hw : 0 < w) (Hh : 0 < h) (Hox : 0 <= ox) (Hoy : 0 <= oy)
  (Hxw : ox + w <= cw) (Hyh : oy + h <= ch)
  (Hlen : length alphaMap = Z.to_nat (w * h)).

Lemma nsrCandidate_spec (row col radius dx dy : Z) :
  0 <= row < h -> 0 <= col < w ->
  nsrCandidate (buildMask alphaMap w h) ox oy w h cw ch row col radius dx dy =
  if NsrSpec.accepted alphaMap ox oy w h cw ch row col radius dx dy
  then Some (((oy + row + dy) * cw + (ox + col + dx)) * 4, (1 / inject_Z (dx * dx + dy * dy))%Q)
  else None.
Proof.
  intros Hr Hc. unfold nsrCandidate, NsrSpec.accepted.
  set (d2 := dx * dx + dy * dy).
  destruct (d2 <? (radius - 1) * (radius - 1)) eqn:E1.
  { apply Z.ltb_lt in E1.
    replace ((radius - 1) * (radius - 1) <=? d2) with false
      by (symmetry; apply Z.leb_gt; lia).
    reflexivity. }
  destruct ((radius + 1) * (radius + 1) <? d2) eqn:E2.
  { apply Z.ltb_lt in E2.
    replace (d2 <=? (radius + 1) * (radius + 1)) with false
      by (symmetry; apply Z.leb_gt; lia).
    rewrite andb_false_r. reflexivity. }
  apply Z.ltb_ge in E1. apply Z.ltb_ge in E2.
  replace ((radius - 1) * (radius - 1) <=? d2) with true by (symmetry; apply Z.leb_le; lia).
  replace (d2 <=? (radius + 1) * (radius + 1)) with true by (symmetry; apply Z.leb_le; lia).
  simpl orb. simpl andb. cbv zeta.
  replace (oy + (row + dy)) with (oy + row + dy) by ring.
  replace (ox + (col + dx)) with (ox + col + dx) by ring.
  destruct ((0 <=? row + dy) && (row + dy <? h) && (0 <=? col + dx) && (col + dx <? w)) eqn:E3.
  - assert (E3' := E3). rewrite !andb_true_iff, !Z.leb_le, !Z.ltb_lt in E3'.
    rewrite buildMask_masked by lia.
    replace (in_rect 0 0 cw ch (ox + col + dx) (oy + row + dy)) with true
      by (symmetry; unfold in_rect; rewrite !andb_true_iff, !Z.leb_le, !Z.ltb_lt; lia).
    simpl. destruct (NsrSpec.masked alphaMap w h (row + dy) (col + dx)); reflexivity.
  - replace (NsrSpec.masked alphaMap w h (row + dy) (col + dx)) with false
      by (unfold NsrSpec.masked; rewrite E3; reflexivity).
    rewrite andb_true_r, canvas_test.
    destruct (in_rect 0 0 cw ch (ox + col + dx) (oy + row + dy)); reflexivity.
Qed.

Lemma rd_unmasked (d' : ImageData) (X Y k : Z) :
  unmasked_agree d alphaMap ox oy w h cw ch d' -> in_rect 0 0 cw ch X Y = true ->
  NsrSpec.masked alphaMap w h (Y - oy) (X - ox) = false -> 0 <= k < 4 ->
  rd d' ((Y * cw + X) * 4 + k) = Some (img_data d ((Y * cw + X) * 4 + k)).
Proof.
  intros [EW [EH Ha]] Hin Hm Hk.
  unfold in_rect in Hin. simpl in Hin. rewrite !andb_true_iff, !Z.leb_le, !Z.ltb_lt in Hin.
  unfold rd, img_len. rewrite EW, EH.
  replace ((0 <=? (Y * cw + X) * 4 + k) && ((Y * cw + X) * 4 + k <? cw * ch * 4)) with true
    by (symmetry; rewrite andb_true_iff, Z.leb_le, Z.ltb_lt; split; nia).
  f_equal. apply Ha. unfold maskedPx.
  destruct (pix_decode cw X Y k ltac:(lia) Hk) as [D1 [D2 _]].
  rewrite D1, D2. exact Hm.
Qed.

Lemma nsrVisit_spec (d' : ImageData) (row col radius dx dy : Z) (s : NsrSpec.Sums) :
  unmasked_agree d alphaMap ox oy w h cw ch d' -> 0 <= row < h -> 0 <= col < w ->
  nsrVisit d' (liftSums s)
    (nsrCandidate (buildMask alphaMap w h) ox oy w h cw ch row col radius dx dy) =
  liftSums (NsrSpec.visit d alphaMap ox oy w h cw ch row col radius s dx dy).
Proof.
  intros Hag Hr Hc. rewrite nsrCandidate_spec by assumption.
  unfold NsrSpec.visit.
  destruct (NsrSpec.accepted alphaMap ox oy w h cw ch row col radius dx dy) eqn:Ea;
    [|reflexivity].
  assert (Ea' := Ea). unfold NsrSpec.accepted in Ea'.
  rewrite !andb_true_iff, negb_true_iff in Ea'.
  destruct Ea' as [[_ Hin] Hm].
  replace (row + dy) with (oy + row + dy - oy) in Hm by ring.
  replace (col + dx) with (ox + col + dx - ox) in Hm by ring.
  destruct s as [[[r g] b] ws]. unfold nsrVisit, liftSums, NsrSpec.sample.
  rewrite <- (Z.add_0_r (((oy + row + dy) * cw + (ox + col + dx)) * 4)) at 1.
  rewrite !(rd_unmasked d' (ox + col + dx) (oy + row + dy)) by (assumption || lia).
  rewrite Z.add_0_r. reflexivity.
Qed.

Lemma fold_left_lift {A : Type} (L : list A) (f : NAcc -> A -> NAcc)
      (g : NsrSpec.Sums -> A -> NsrSpec.Sums) (s : NsrSpec.Sums) :
  (forall s e, f (liftSums s) e = liftSums (g s e)) ->
  fold_left f L (liftSums s) = liftSums (fold_left g L s).
Proof.
  intro H. revert s. induction L as [|e L IH]; intro s; [reflexivity|].
  simpl. rewrite H. apply IH.
Qed.

Lemma nsrRing_spec (d' : ImageData) (row col radius : Z) (s : NsrSpec.Sums) :
  unmasked_agree d alphaMap ox oy w h cw ch d' -> 0 <= row < h -> 0 <= col < w ->
  nsrRing d' (buildMask alphaMap w h) ox oy w h cw ch row col radius (liftSums s) =
  liftSums (NsrSpec.ring d alphaMap ox oy w h cw ch row col radius s).
Proof.
  intros Hag Hr Hc. unfold nsrRing, NsrSpec.ring.
  apply fold_left_lift. intros s' dy.
  apply fold_left_lift. intros s'' dx.
  apply nsrVisit_spec; assumption.
Qed.

Lemma nsrRings_spec (d' : ImageData) (row col SR : Z) :
  unmasked_agree d alphaMap ox oy w h cw ch d' -> 0 <= row < h -> 0 <= col < w ->
  forall (n : nat) (radius : Z) (s : NsrSpec.Sums),
    radius + Z.of_nat n <= SR + 1 ->
    nsrRings n d' (buildMask alphaMap w h) ox oy w h cw ch row col radius SR (liftSums s) =
    liftSums (NsrSpec.rings n d alphaMap ox oy w h cw ch row col radius s).
Proof.
  intros Hag Hr Hc n. induction n as [|n IH]; intros radius s Hn; [reflexivity|].
  simpl. replace (radius <=? SR) with true by (symmetry; apply Z.leb_le; lia).
  replace (wSum (liftSums s)) with (NsrSpec.weightOf s) by (destruct s as [[[? ?] ?] ?]; reflexivity).
  simpl andb. destruct (Qlt_bool (NsrSpec.weightOf s) 8); [|reflexivity].
  rewrite nsrRing_spec by assumption. apply IH. lia.
Qed.

Lemma nsrSearch_spec (d' : ImageData) (row col : Z) :
  unmasked_agree d alphaMap ox oy w h cw ch d' -> 0 <= row < h -> 0 <= col < w ->
  nsrRings (Z.to_nat (Z.max w h + 8)) d' (buildMask alphaMap w h) ox oy w h cw ch row col 1
           (Z.max w h + 8) acc0 =
  liftSums (NsrSpec.search d alphaMap ox oy w h cw ch row col).
Proof.
  intros Hag Hr Hc. unfold NsrSpec.search.
  change acc0 with (liftSums (0, 0, 0, 0)%Q).
  apply nsrRings_spec; try assumption. lia.
Qed.

End NsrRefinement.

Lemma scale_bound (v wt : Q) :
  (0 <= v <= 255 -> 0 <= wt -> 0 <= v * wt <= 255 * wt)%Q.
Proof.
  intros Hv Hwt. split.
  - apply Qmult_le_0_compat; lra.
  - apply Qmult_le_compat_r; lra.
Qed.

Lemma inv_nonneg (z : Z) : 0 <= z -> (0 <= 1 / inject_Z z)%Q.
Proof.
  intro Hz. unfold Qdiv. apply Qmult_le_0_compat; [lra|].
  apply Qinv_le_0_compat. unfold Qle. simpl. lia.
Qed.

Lemma Zbyte_Q (v : Z) : 0 <= v <= 255 -> (0 <= inject_Z v <= 255)%Q.
Proof. intro Hv. split; unfold Qle; simpl; lia. Qed.

Lemma fold_pres {A B : Type} (P : A -> Prop) (f : A -> B -> A) (L : list B) (s : A) :
  (forall s e, P s -> P (f s e)) -> P s -> P (fold_left f L s).
Proof.
  intro H. revert s. induction L as [|e L IH]; intros s Hs; [exact Hs|].
  simpl. apply IH, H, Hs.
Qed.

Lemma js_round_avg_byte (s ws : Q) :
  (0 < ws)%Q -> (0 <= s <= 255 * ws)%Q -> 0 <= js_round (s / ws) <= 255.
Proof.
  intros Hws Hs.
  assert (H0 : (0 <= s / ws)%Q) by (apply Qle_shift_div_l; lra).
  assert (H1 : (s / ws <= 255)%Q) by (apply Qle_shift_div_r; lra).
  destruct (js_round_bounds (s / ws)) as [A B].
  assert (A' : (inject_Z (js_round (s / ws)) <= 255 + (1 # 2))%Q) by lra.
  assert (B' : (- (1 # 2) < inject_Z (js_round (s / ws)))%Q) by lra.
  unfold Qle, Qlt in A', B'. simpl in A', B'. lia.
Qed.

Section NsrBounds.

Variables (d : ImageData) (alphaMap : list Q) (ox oy w h cw ch : Z).

Hypotheses (Hcw : img_width d = cw) (Hch : img_height d = ch)
  (Hbytes : forall i, in_buf d i = true -> 0 <= img_data d i <= 255).

Lemma sample_byte (X Y k : Z) :
  in_rect 0 0 cw ch X Y = true -> 0 <= k < 4 -> 0 <= NsrSpec.sample d cw X Y k <= 255.
Proof.
  intros Hin Hk. unfold in_rect in Hin. simpl in Hin.
  rewrite !andb_true_iff, !Z.leb_le, !Z.ltb_lt in Hin.
  unfold NsrSpec.sample. apply Hbytes.
  unfold in_buf, img_len. rewrite Hcw, Hch, andb_true_iff, Z.leb_le, Z.ltb_lt. split; nia.
Qed.

Lemma visit_bounded (row col radius : Z) (s : NsrSpec.Sums) (dx dy : Z) :
  sumsBounded s -> sumsBounded (NsrSpec.visit d alphaMap ox oy w h cw ch row col radius s dx dy).
Proof.
  intro Hs. unfold NsrSpec.visit.
  destruct (NsrSpec.accepted alphaMap ox oy w h cw ch row col radius dx dy) eqn:Ea;
    [|exact Hs].
  unfold NsrSpec.accepted in Ea. rewrite !andb_true_iff in Ea.
  destruct Ea as [[_ Hin] _].
  assert (Hwt : (0 <= 1 / inject_Z (dx * dx + dy * dy))%Q) by (apply inv_nonneg; nia).
  set (wt := (1 / inject_Z (dx * dx + dy * dy))%Q) in *.
  pose proof (scale_bound _ wt (Zbyte_Q _ (sample_byte _ _ 0 Hin ltac:(lia))) Hwt) as B0.
  pose proof (scale_bound _ wt (Zbyte_Q _ (sample_byte _ _ 1 Hin ltac:(lia))) Hwt) as B1.
  pose proof (scale_bound _ wt (Zbyte_Q _ (sample_byte _ _ 2 Hin ltac:(lia))) Hwt) as B2.
  destruct s as [[[r g] b] ws]. unfold sumsBounded in *. lra.
Qed.

Lemma ring_bounded (row col radius : Z) (s : NsrSpec.Sums) :
  sumsBounded s -> sumsBounded (NsrSpec.ring d alphaMap ox oy w h cw ch row col radius s).
Proof.
  intro Hs. unfold NsrSpec.ring.
  apply fold_pres; [|exact Hs]. intros s' dy Hs'.
  apply fold_pres; [|exact Hs']. intros s'' dx Hs''.
  apply visit_bounded, Hs''.
Qed.

Lemma rings_bounded (row col : Z) (n : nat) :
  forall radius s, sumsBounded s ->
  sumsBounded (NsrSpec.rings n d alphaMap ox oy w h cw ch row col radius s).
Proof.
  induction n as [|n IH]; intros radius s Hs; [exact Hs|].
  simpl. destruct (Qlt_bool (NsrSpec.weightOf s) 8); [|exact Hs].
  apply IH, ring_bounded, Hs.
Qed.

Lemma search_bounded (row col : Z) :
  sumsBounded (NsrSpec.search d alphaMap ox oy w h cw ch row col).
Proof.
  apply rings_bounded. unfold sumsBounded. lra.
Qed.

End NsrBounds.

Lemma fold_owned {A B : Type} (P : A -> Prop) (val : A -> Z -> Z) (T : Z -> Z)
      (own : B -> Z -> bool) (f : A -> B -> A) (L : list B) :
  (forall e, In e L -> forall s, P s ->
     P (f s e) /\ (forall i, own e i = true -> val (f s e) i = T i) /\
     (forall i, own e i = false -> val (f s e) i = val s i)) ->
  forall s, P s ->
    P (fold_left f L s) /\
    (forall i, existsb (fun e => own e i) L = true -> val (fold_left f L s) i = T i) /\
    (forall i, existsb (fun e => own e i) L = false -> val (fold_left f L s) i = val s i).
Proof.
  induction L as [|e L IH]; intros H s Hs.
  - split; [exact Hs|]. split; intros i Hi; [discriminate | reflexivity].
  - simpl. destruct (H e (or_introl eq_refl) s Hs) as [P1 [O1 N1]].
    destruct (IH (fun e' He' => H e' (or_intror He')) (f s e) P1) as [P2 [O2 N2]].
    split; [exact P2|]. split.
    + intros i Hi. destruct (existsb (fun e0 => own e0 i) L) eqn:EL.
      * apply O2, EL.
      * rewrite N2 by exact EL. apply O1. rewrite orb_false_r in Hi. exact Hi.
    + intros i Hi. apply orb_false_iff in Hi. destruct Hi as [Hi1 Hi2].
      rewrite N2, N1 by assumption. reflexivity.
Qed.

Lemma wr_in (d : ImageData) (i : Z) (v : option Q) :
  0 <= i < img_len d ->
  wr d i v = mkImageData (img_width d) (img_height d) (upd (img_data d) i (to_uint8_clamp v)).
Proof.
  intro Hi. unfold wr.
  replace ((0 <=? i) && (i <? img_len d)) with true
    by (symmetry; rewrite andb_true_iff, Z.leb_le, Z.ltb_lt; lia).
  reflexivity.
Qed.

Lemma wr_width (d : ImageData) (i : Z) (v : option Q) : img_width (wr d i v) = img_width d.
Proof. unfold wr. destruct ((0 <=? i) && (i <? img_len d)); reflexivity. Qed.

Lemma wr_height (d : ImageData) (i : Z) (v : option Q) : img_height (wr d i v) = img_height d.
Proof. unfold wr. destruct ((0 <=? i) && (i <? img_len d)); reflexivity. Qed.

Lemma wr_len (d : ImageData) (i : Z) (v : option Q) : img_len (wr d i v) = img_len d.
Proof. unfold img_len. rewrite wr_width, wr_height. reflexivity. Qed.

Lemma wr_data (d : ImageData) (i : Z) (v : option Q) (j : Z) :
  0 <= i < img_len d ->
  img_data (wr d i v) j = if j =? i then to_uint8_clamp v else img_data d j.
Proof. intro Hi. rewrite wr_in by exact Hi. reflexivity. Qed.

Ltac decide_Z_tests :=
  repeat match goal with
  | |- context [?a =? ?b] =>
      first [ replace (a =? b) with true by (symmetry; apply Z.eqb_eq; lia)
            | replace (a =? b) with false by (symmetry; apply Z.eqb_neq; lia) ]
  | |- context [?a <? ?b] =>
      first [ replace (a <? b) with true by (symmetry; apply Z.ltb_lt; lia)
            | replace (a <? b) with false by (symmetry; apply Z.ltb_ge; lia) ]
  end.

Section NsrStep.

Variables (d : ImageData) (alphaMap : list Q) (ox oy w h cw ch : Z).

Hypotheses (Hcw : img_width d = cw) (Hch : img_height d = ch)
  (Hw : 0 < w) (Hh : 0 < h) (Hox : 0 <= ox) (Hoy : 0 <= oy)
  (Hxw : ox + w <= cw) (Hyh : oy + h <= ch)
  (Hlen : length alphaMap = Z.to_nat (w * h))
  (Hbytes : forall i, in_buf d i = true -> 0 <= img_data d i <= 255).

Local Abbreviation T := (NsrSpec.reconstruct d alphaMap (mkInfo 0 ox oy w h) cw ch).

Lemma T_unmasked (i : Z) :
  maskedPx alphaMap ox oy w h cw i = false -> T i = img_data d i.
Proof.
  intro Hm. unfold maskedPx in Hm. unfold NsrSpec.reconstruct. cbn [x y width height].
  rewrite Hm, andb_false_r. reflexivity.
Qed.

Lemma nsrGood_agree (d' : ImageData) :
  nsrGood d alphaMap ox oy w h cw ch d' -> unmasked_agree d alphaMap ox oy w h cw ch d'.
Proof.
  intros [EW [EH Hv]]. split; [exact EW|]. split; [exact EH|].
  intros i Hm. destruct (Hv i) as [E|E]; rewrite E; [reflexivity|]. apply T_unmasked, Hm.
Qed.

Lemma T_owned (row col i : Z) :
  ownedBy d cw (ox + col) (oy + row) i = true ->
  T i = (if (chan i <? 3) && NsrSpec.masked alphaMap w h row col then
           let '(r, g, b, ws) := NsrSpec.search d alphaMap ox oy w h cw ch row col in
           if Qlt_bool 0 ws
           then js_round ((if chan i =? 0 then r else if chan i =? 1 then g else b) / ws)
           else img_data d i
         else img_data d i).
Proof.
  intro Ho. unfold ownedBy in Ho. rewrite !andb_true_iff, !Z.eqb_eq in Ho.
  destruct Ho as [[Hb Hy] Hx].
  unfold NsrSpec.reconstruct. cbn [x y width height].
  rewrite Hb, Hx, Hy. simpl andb.
  replace (oy + row - oy) with row by ring.
  replace (ox + col - ox) with col by ring.
  reflexivity.
Qed.

Lemma owned_idx (row col k : Z) :
  0 <= row < h -> 0 <= col < w -> 0 <= k < 4 ->
  ownedBy d cw (ox + col) (oy + row) (((oy + row) * cw + (ox + col)) * 4 + k) = true.
Proof.
  intros Hr Hc Hk.
  destruct (pix_decode cw (ox + col) (oy + row) k ltac:(lia) Hk) as [D1 [D2 _]].
  unfold ownedBy. rewrite D1, D2, !Z.eqb_refl, !andb_true_r.
  unfold in_buf, img_len. rewrite Hcw, Hch, andb_true_iff, Z.leb_le, Z.ltb_lt. split; nia.
Qed.

Lemma owned_split (row col i : Z) :
  ownedBy d cw (ox + col) (oy + row) i = true ->
  i = ((oy + row) * cw + (ox + col)) * 4 + chan i /\ 0 <= chan i < 4.
Proof.
  intro Ho. unfold ownedBy in Ho. rewrite !andb_true_iff, !Z.eqb_eq in Ho.
  destruct Ho as [[_ Hy] Hx].
  assert (Hcw0 : 0 < cw) by lia.
  split; [|apply (pix_bounds cw i Hcw0)].
  rewrite <- Hy, <- Hx. apply pix_encode, Hcw0.
Qed.

Lemma nsrPixel_step (d' : ImageData) (row col : Z) :
  nsrGood d alphaMap ox oy w h cw ch d' -> 0 <= row < h -> 0 <= col < w ->
  let d'' := nsrPixel (buildMask alphaMap w h) ox oy w h cw ch (Z.max w h + 8) d' row col in
  nsrGood d alphaMap ox oy w h cw ch d'' /\
  (forall i, ownedBy d cw (ox + col) (oy + row) i = true -> img_data d'' i = T i) /\
  (forall i, ownedBy d cw (ox + col) (oy + row) i = false -> img_data d'' i = img_data d' i).
Proof.
  intros HG Hr Hc. cbv zeta.
  assert (Hag := nsrGood_agree d' HG).
  destruct HG as [EW [EH Hv]].
  assert (Hkeep : forall i, T i = img_data d i -> img_data d' i = T i)
    by (intros i Ei; destruct (Hv i) as [E|E]; rewrite E; [symmetry; exact Ei | reflexivity]).
  match goal with |- nsrGood _ _ _ _ _ _ _ _ ?e /\ _ =>
    cut (img_width e = cw /\ img_height e = ch /\
         (forall i, ownedBy d cw (ox + col) (oy + row) i = true -> img_data e i = T i) /\
         (forall i, ownedBy d cw (ox + col) (oy + row) i = false -> img_data e i = img_data d' i)) end.
  { intros [W' [H' [O N]]]. split; [|split; assumption].
    split; [exact W'|]. split; [exact H'|]. intro i.
    destruct (ownedBy d cw (ox + col) (oy + row) i) eqn:Eo.
    - right. apply O, Eo.
    - rewrite (N i Eo). apply Hv. }
  unfold nsrPixel. rewrite buildMask_masked by (assumption || lia).
  destruct (NsrSpec.masked alphaMap w h row col) eqn:Em; cbn [negb].
  2:{ split; [exact EW|]. split; [exact EH|]. split; [|reflexivity].
      intros i Ho. apply Hkeep. rewrite (T_owned row col i Ho), Em, andb_false_r. reflexivity. }
  rewrite (nsrSearch_spec d alphaMap ox oy w h cw ch) by (assumption || lia).
  assert (Hb : sumsBounded (NsrSpec.search d alphaMap ox oy w h cw ch row col))
    by (apply search_bounded; assumption).
  destruct (NsrSpec.search d alphaMap ox oy w h cw ch row col) as [[[r g] b] ws] eqn:Es.
  cbn [liftSums wSum rSum gSum bSum].
  destruct (Qlt_bool 0 ws) eqn:Ews.
  2:{ split; [exact EW|]. split; [exact EH|]. split; [|reflexivity].
      intros i Ho. apply Hkeep. rewrite (T_owned row col i Ho), Em, andb_true_r, Es.
      destruct (chan i <? 3); [|reflexivity]. cbv beta iota zeta. rewrite Ews. reflexivity. }
  assert (Hws : (0 < ws)%Q) by (apply Qlt_bool_iff, Ews).
  unfold sumsBounded in Hb.
  assert (VR : to_uint8_clamp (roundAvg (Some r) ws) = js_round (r / ws))
    by (apply to_uint8_clamp_int; [apply Qeq_refl | apply js_round_avg_byte; lra]).
  assert (VG : to_uint8_clamp (roundAvg (Some g) ws) = js_round (g / ws))
    by (apply to_uint8_clamp_int; [apply Qeq_refl | apply js_round_avg_byte; lra]).
  assert (VB : to_uint8_clamp (roundAvg (Some b) ws) = js_round (b / ws))
    by (apply to_uint8_clamp_int; [apply Qeq_refl | apply js_round_avg_byte; lra]).
  set (idx := ((oy + row) * cw + (ox + col)) * 4).
  assert (Hlen' : img_len d' = cw * ch * 4) by (unfold img_len; rewrite EW, EH; reflexivity).
  assert (Hidx : 0 <= idx /\ idx + 3 < cw * ch * 4) by (unfold idx; split; nia).
  rewrite !wr_width, !wr_height. split; [exact EW|]. split; [exact EH|].
  split; intros i Ho; rewrite !wr_data by (rewrite ?wr_len, Hlen'; lia).
  - destruct (owned_split row col i Ho) as [Hi Hk]. fold idx in Hi.
    destruct (Z.eq_dec (chan i) 3) as [C3|C3].
    + rewrite Hi, C3. decide_Z_tests. rewrite <- C3, <- Hi.
      apply Hkeep. rewrite (T_owned row col i Ho), C3. reflexivity.
    + rewrite (T_owned row col i Ho), Em, andb_true_r, Es. cbv beta iota zeta.
      rewrite Ews.
      assert (Hc3 : chan i = 0 \/ chan i = 1 \/ chan i = 2) by lia.
      destruct Hc3 as [C|[C|C]]; rewrite C in *; rewrite Hi; decide_Z_tests;
        cbv beta iota; assumption.
  - assert (N : forall k, 0 <= k < 4 -> i <> idx + k).
    { intros k Hk E. rewrite E in Ho. unfold idx in Ho.
      rewrite owned_idx in Ho by lia. discriminate. }
    pose proof (N 0 ltac:(lia)). pose proof (N 1 ltac:(lia)). pose proof (N 2 ltac:(lia)).
    decide_Z_tests. reflexivity.
Qed.

Lemma T_default (i : Z) :
  existsb (fun row => existsb (fun col => ownedBy d cw (ox + col) (oy + row) i) (zrange 0 w))
          (zrange 0 h) = false ->
  T i = img_data d i.
Proof.
  intro Hn. unfold NsrSpec.reconstruct. cbn [x y width height]. cbv zeta.
  destruct (in_buf d i && (chan i <? 3) &&
            NsrSpec.masked alphaMap w h (pix_y cw i - oy) (pix_x cw i - ox)) eqn:E;
    [|reflexivity].
  exfalso. rewrite !andb_true_iff in E. destruct E as [[Hb _] Hm].
  unfold NsrSpec.masked in Hm. rewrite !andb_true_iff, !Z.leb_le, !Z.ltb_lt in Hm.
  destruct Hm as [[[[Hr1 Hr2] Hc1] Hc2] _].
  rewrite <- not_true_iff_false in Hn. apply Hn.
  apply existsb_exists. exists (pix_y cw i - oy). split; [apply in_zrange; lia|].
  apply existsb_exists. exists (pix_x cw i - ox). split; [apply in_zrange; lia|].
  unfold ownedBy. rewrite Hb.
  replace (oy + (pix_y cw i - oy)) with (pix_y cw i) by ring.
  replace (ox + (pix_x cw i - ox)) with (pix_x cw i) by ring.
  rewrite !Z.eqb_refl. reflexivity.
Qed.

Lemma removeWatermark_refines (sz : Z) :
  let out := removeWatermarkWithAlphaMap d alphaMap (mkInfo sz ox oy w h) cw ch in
  img_width out = cw /\ img_height out = ch /\
  forall i, img_data out i = NsrSpec.reconstruct d alphaMap (mkInfo sz ox oy w h) cw ch i.
Proof.
  cbv zeta. unfold removeWatermarkWithAlphaMap. cbn [x y width height]. cbv zeta.
  change (NsrSpec.reconstruct d alphaMap (mkInfo sz ox oy w h) cw ch) with T.
  assert (G0 : nsrGood d alphaMap ox oy w h cw ch d)
    by (split; [exact Hcw|]; split; [exact Hch|]; intro i; left; reflexivity).
  destruct (fold_owned (nsrGood d alphaMap ox oy w h cw ch) img_data T
     (fun row i => existsb (fun col => ownedBy d cw (ox + col) (oy + row) i) (zrange 0 w))
     (fun d0 row => fold_left (fun d1 col =>
        nsrPixel (buildMask alphaMap w h) ox oy w h cw ch (Z.max w h + 8) d1 row col)
        (zrange 0 w) d0)
     (zrange 0 h)) with (s := d) as [[EW [EH _]] [O N]]; [|exact G0|].
  - intros row Hrow s0 Hs0. apply in_zrange in Hrow.
    apply (fold_owned _ img_data T (fun col i => ownedBy d cw (ox + col) (oy + row) i));
      [|exact Hs0].
    intros col Hcol s' Hs'. apply in_zrange in Hcol.
    destruct (nsrPixel_step s' row col Hs' Hrow Hcol) as [G1 [O1 N1]].
    split; [exact G1|]. split; [exact O1 | exact N1].
  - split; [exact EW|]. split; [exact EH|]. intro i.
    destruct (existsb (fun row => existsb (fun col => ownedBy d cw (ox + col) (oy + row) i)
                (zrange 0 w)) (zrange 0 h)) eqn:E.
    + apply O, E.
    + rewrite N by exact E. symmetry. apply T_default, E.
Qed.

End NsrStep.

Lemma fold_left_ext' {A B : Type} (f g : A -> B -> A) (L : list B) (s : A) :
  (forall s e, f s e = g s e) -> fold_left f L s = fold_left g L s.
Proof.
  intro H. revert s. induction L as [|e L IH]; intro s; [reflexivity|].
  simpl. rewrite H. apply IH.
Qed.

Section NsrLocality.

Variables (d1 d2 : ImageData) (alphaMap : list Q) (ox oy w h cw ch : Z).

Hypothesis Hagree :
  forall i, maskedPx alphaMap ox oy w h cw i = false -> img_data d2 i = img_data d1 i.

Lemma visit_agree (row col radius : Z) (s : NsrSpec.Sums) (dx dy : Z) :
  NsrSpec.visit d2 alphaMap ox oy w h cw ch row col radius s dx dy =
  NsrSpec.visit d1 alphaMap ox oy w h cw ch row col radius s dx dy.
Proof.
  unfold NsrSpec.visit.
  destruct (NsrSpec.accepted alphaMap ox oy w h cw ch row col radius dx dy) eqn:Ea;
    [|reflexivity].
  unfold NsrSpec.accepted in Ea. rewrite !andb_true_iff, negb_true_iff in Ea.
  destruct Ea as [[_ Hin] Hm].
  unfold in_rect in Hin. simpl in Hin. rewrite !andb_true_iff, !Z.leb_le, !Z.ltb_lt in Hin.
  assert (E : forall k, 0 <= k < 4 ->
    img_data d2 (((oy + row + dy) * cw + (ox + col + dx)) * 4 + k) =
    img_data d1 (((oy + row + dy) * cw + (ox + col + dx)) * 4 + k)).
  { intros k Hk. apply Hagree. unfold maskedPx.
    destruct (pix_decode cw (ox + col + dx) (oy + row + dy) k ltac:(lia) Hk) as [D1 [D2 _]].
    rewrite D1, D2.
    replace (oy + row + dy - oy) with (row + dy) by ring.
    replace (ox + col + dx - ox) with (col + dx) by ring.
    exact Hm. }
  unfold NsrSpec.sample. rewrite !E by lia. reflexivity.
Qed.

Lemma search_agree (row col : Z) :
  NsrSpec.search d2 alphaMap ox oy w h cw ch row col =
  NsrSpec.search d1 alphaMap ox oy w h cw ch row col.
Proof.
  unfold NsrSpec.search. generalize 1 (0, 0, 0, 0)%Q.
  induction (Z.to_nat (Z.max w h + 8)) as [|n IH]; intros radius s; [reflexivity|].
  simpl. destruct (Qlt_bool (NsrSpec.weightOf s) 8); [|reflexivity].
  rewrite <- IH. f_equal. unfold NsrSpec.ring.
  apply fold_left_ext'. intros s' dy.
  apply fold_left_ext'. intros s'' dx.
  apply visit_agree.
Qed.

End NsrLocality.

Lemma candidate_unmasked (alphaMap : list Q) (ox oy w h cw ch row col radius dx dy idx : Z)
      (wt : Q) (k : Z) :
  0 < w -> 0 < h -> 0 <= ox -> 0 <= oy -> ox + w <= cw -> oy + h <= ch ->
  length alphaMap = Z.to_nat (w * h) ->
  0 <= row < h -> 0 <= col < w ->
  nsrCandidate (buildMask alphaMap w h) ox oy w h cw ch row col radius dx dy = Some (idx, wt) ->
  0 <= k < 4 ->
  maskedPx alphaMap ox oy w h cw (idx + k) = false.
Proof.
  intros Hw Hh Hox Hoy Hxw Hyh Hlen Hr Hc Hcand Hk.
  rewrite nsrCandidate_spec in Hcand by (assumption || lia).
  destruct (NsrSpec.accepted alphaMap ox oy w h cw ch row col radius dx dy) eqn:Ea;
    [|discriminate].
  injection Hcand as Hidx _. subst idx.
  unfold NsrSpec.accepted in Ea. rewrite !andb_true_iff, negb_true_iff in Ea.
  destruct Ea as [[_ Hin] Hm].
  unfold in_rect in Hin. simpl in Hin. rewrite !andb_true_iff, !Z.leb_le, !Z.ltb_lt in Hin.
  unfold maskedPx.
  destruct (pix_decode cw (ox + col + dx) (oy + row + dy) k ltac:(lia) Hk) as [D1 [D2 _]].
  rewrite D1, D2.
  replace (oy + row + dy - oy) with (row + dy) by ring.
  replace (ox + col + dx - ox) with (col + dx) by ring.
  exact Hm.
Qed.

(** C1: for an image buffer of bytes, a region inside the canvas and an alpha
    map with one entry per region pixel, [removeWatermarkWithAlphaMap] keeps
    the buffer's size and produces, at every index, exactly the spec's
    reading [NsrSpec.reconstruct]. That reading marks a pixel masked iff its
    alpha exceeds 0.05. It searches rings of radius 1, 2, ... up to
    max(w, h) + 8 at stride max(1, floor(radius/2)), accepting unmasked
    in-canvas candidates at a distance in [radius - 1, radius + 1] with
    weight 1/distance^2, and stops at a ring boundary once the weight
    reaches 8. It sets the pixel's RGB to the rounded weighted average, and
    leaves a pixel without candidates unmodified. *)
Theorem removeWatermarkWithAlphaMap_refines_spec (d : ImageData) (alphaMap : list Q)
        (sz ox oy w h cw ch : Z) :
  img_width d = cw -> img_height d = ch ->
  0 < w -> 0 < h -> 0 <= ox -> 0 <= oy -> ox + w <= cw -> oy + h <= ch ->
  length alphaMap = Z.to_nat (w * h) ->
  (forall i, in_buf d i = true -> 0 <= img_data d i <= 255) ->
  let out := removeWatermarkWithAlphaMap d alphaMap (mkInfo sz ox oy w h) cw ch in
  img_width out = cw /\ img_height out = ch /\
  forall i, img_data out i = NsrSpec.reconstruct d alphaMap (mkInfo sz ox oy w h) cw ch i.
Proof.
  intros Hcw Hch Hw Hh Hox Hoy Hxw Hyh Hlen Hbytes.
  exact (removeWatermark_refines d alphaMap ox oy w h cw ch
           Hcw Hch Hw Hh Hox Hoy Hxw Hyh Hlen Hbytes sz).
Qed.

Lemma removeWatermarkWithAlphaMap_refines_spec_witness :
  let d := mkImageData 4 4 (fun i => 100 + i mod 7) in
  let am := (1 :: 0 :: 0 :: 1 :: nil)%Q in
  let out := removeWatermarkWithAlphaMap d am (mkInfo 2 1 1 2 2) 4 4 in
  img_width out = 4 /\ img_height out = 4 /\
  forall i, img_data out i = NsrSpec.reconstruct d am (mkInfo 2 1 1 2 2) 4 4 i.
Proof.
  intros d am.
  refine (removeWatermarkWithAlphaMap_refines_spec d am 2 1 1 2 2 4 4
            eq_refl eq_refl _ _ _ _ _ _ eq_refl _); try lia.
  intros i _. cbn [img_data d]. pose proof (Z.mod_pos_bound i 7 ltac:(lia)). lia.
Defined.

(** C5: in the Neighbor-Sampling Reconstructor every accepted candidate
    names a pixel whose four channels all lie outside the masked set, so a
    masked pixel's own colour never contributes. Consequently, for two byte
    images that differ only at masked pixels, every masked RGB value that is
    written is the same in both outputs. A masked pixel is written in both
    runs or in neither, and one that is not written keeps its input value. *)
Theorem nsr_reads_only_unmasked (d1 d2 : ImageData) (alphaMap : list Q)
        (sz ox oy w h cw ch : Z) :
  img_width d1 = cw -> img_height d1 = ch -> img_width d2 = cw -> img_height d2 = ch ->
  0 < w -> 0 < h -> 0 <= ox -> 0 <= oy -> ox + w <= cw -> oy + h <= ch ->
  length alphaMap = Z.to_nat (w * h) ->
  (forall i, in_buf d1 i = true -> 0 <= img_data d1 i <= 255) ->
  (forall i, in_buf d2 i = true -> 0 <= img_data d2 i <= 255) ->
  (forall i, maskedPx alphaMap ox oy w h cw i = false -> img_data d2 i = img_data d1 i) ->
  (forall row col radius dx dy idx wt k,
     0 <= row < h -> 0 <= col < w ->
     nsrCandidate (buildMask alphaMap w h) ox oy w h cw ch row col radius dx dy = Some (idx, wt) ->
     0 <= k < 4 -> maskedPx alphaMap ox oy w h cw (idx + k) = false) /\
  (forall i, in_buf d1 i = true -> chan i < 3 -> maskedPx alphaMap ox oy w h cw i = true ->
     let out1 := removeWatermarkWithAlphaMap d1 alphaMap (mkInfo sz ox oy w h) cw ch in
     let out2 := removeWatermarkWithAlphaMap d2 alphaMap (mkInfo sz ox oy w h) cw ch in
     let ws := NsrSpec.weightOf (NsrSpec.search d1 alphaMap ox oy w h cw ch
                                   (pix_y cw i - oy) (pix_x cw i - ox)) in
     if Qlt_bool 0 ws then img_data out1 i = img_data out2 i
     else img_data out1 i = img_data d1 i /\ img_data out2 i = img_data d2 i).
Proof.
  intros Hcw1 Hch1 Hcw2 Hch2 Hw Hh Hox Hoy Hxw Hyh Hlen Hb1 Hb2 Hagree.
  split.
  - intros row col radius dx dy idx wt k Hr Hc Hcand Hk.
    exact (candidate_unmasked alphaMap ox oy w h cw ch row col radius dx dy idx wt k
             Hw Hh Hox Hoy Hxw Hyh Hlen Hr Hc Hcand Hk).
  - intros i Hin Hk Hm. cbv zeta.
    destruct (removeWatermark_refines d1 alphaMap ox oy w h cw ch
                Hcw1 Hch1 Hw Hh Hox Hoy Hxw Hyh Hlen Hb1 sz) as [_ [_ R1]].
    destruct (removeWatermark_refines d2 alphaMap ox oy w h cw ch
                Hcw2 Hch2 Hw Hh Hox Hoy Hxw Hyh Hlen Hb2 sz) as [_ [_ R2]].
    rewrite R1, R2. unfold NsrSpec.reconstruct. cbn [x y width height]. cbv zeta.
    assert (Hin2 : in_buf d2 i = true)
      by (unfold in_buf, img_len in *; rewrite Hcw2, Hch2; rewrite Hcw1, Hch1 in Hin; exact Hin).
    unfold maskedPx in Hm.
    rewrite Hin, Hin2, Hm. replace (chan i <? 3) with true by (symmetry; apply Z.ltb_lt, Hk).
    rewrite (search_agree d1 d2 alphaMap ox oy w h cw ch Hagree).
    destruct (NsrSpec.search d1 alphaMap ox oy w h cw ch (pix_y cw i - oy) (pix_x cw i - ox))
      as [[[r g] b] ws].
    cbn [NsrSpec.weightOf andb].
    destruct (Qlt_bool 0 ws); [reflexivity | split; reflexivity].
Qed.

Lemma nsr_reads_only_unmasked_witness :
  let am := (1 :: 0 :: 0 :: 1 :: nil)%Q in
  let d1 := mkImageData 4 4 (fun _ => 100) in
  let d2 := mkImageData 4 4 (fun i => if maskedPx am 1 1 2 2 4 i then 200 else 100) in
  (forall row col radius dx dy idx wt k,
     0 <= row < 2 -> 0 <= col < 2 ->
     nsrCandidate (buildMask am 2 2) 1 1 2 2 4 4 row col radius dx dy = Some (idx, wt) ->
     0 <= k < 4 -> maskedPx am 1 1 2 2 4 (idx + k) = false) /\
  (forall i, in_buf d1 i = true -> chan i < 3 -> maskedPx am 1 1 2 2 4 i = true ->
     let out1 := removeWatermarkWithAlphaMap d1 am (mkInfo 2 1 1 2 2) 4 4 in
     let out2 := removeWatermarkWithAlphaMap d2 am (mkInfo 2 1 1 2 2) 4 4 in
     let ws := NsrSpec.weightOf (NsrSpec.search d1 am 1 1 2 2 4 4
                                   (pix_y 4 i - 1) (pix_x 4 i - 1)) in
     if Qlt_bool 0 ws then img_data out1 i = img_data out2 i
     else img_data out1 i = img_data d1 i /\ img_data out2 i = img_data d2 i).
Proof.
  intros am d1 d2.
  refine (nsr_reads_only_unmasked d1 d2 am 2 1 1 2 2 4 4
            eq_refl eq_refl eq_refl eq_refl _ _ _ _ _ _ eq_refl _ _ _); try lia.
  - intros i _. cbn [img_data d1]. lia.
  - intros i _. cbn [img_data d2]. destruct (maskedPx am 1 1 2 2 4 i); lia.
  - intros i Hm. cbn [img_data d1 d2]. rewrite Hm. reflexivity.
Defined.

(** ** Further properties of the pixel routines *)

Lemma buildMask_alpha (alphaMap : list Q) (w h r c : Z) :
  0 <= r < h -> 0 <= c < w ->
  buildMask alphaMap w h (r * w + c) = alpha_gt alphaMap (r * w + c).
Proof.
  intros Hr Hc. rewrite buildMask_exists.
  destruct (alpha_gt alphaMap (r * w + c)) eqn:Eg.
  - apply existsb_exists. exists r. split; [apply in_zrange; lia|].
    apply existsb_exists. exists c. split; [apply in_zrange; lia|].
    rewrite Eg, Z.eqb_refl. reflexivity.
  - apply not_true_is_false. intro Hex.
    apply existsb_exists in Hex. destruct Hex as [r' [_ Hex]].
    apply existsb_exists in Hex. destruct Hex as [c' [_ Hex]].
    apply andb_true_iff in Hex. destruct Hex as [Hg He].
    apply Z.eqb_eq in He. rewrite He in Hg. congruence.
Qed.

Lemma fold_pres_in {A B : Type} (P : A -> Prop) (f : A -> B -> A) (L : list B) (s : A) :
  (forall s e, In e L -> P s -> P (f s e)) -> P s -> P (fold_left f L s).
Proof.
  revert s. induction L as [|e L IH]; intros s H Hs; [exact Hs|].
  simpl. apply IH; [intros s' e' He'; apply H; right; exact He'|].
  apply H; [left; reflexivity | exact Hs].
Qed.

Lemma wr_changed (d : ImageData) (i : Z) (v : option Q) (j : Z) :
  img_data (wr d i v) j <> img_data d j -> j = i /\ 0 <= i < img_len d.
Proof.
  unfold wr. destruct ((0 <=? i) && (i <? img_len d)) eqn:E; [|intro H; contradiction].
  rewrite andb_true_iff, Z.leb_le, Z.ltb_lt in E. cbn [img_data]. unfold upd.
  destruct (Z.eqb_spec j i); [intros _; split; [assumption | lia] | intro H; contradiction].
Qed.

Lemma nsrPixel_dims (mask : Z -> bool) (ox oy w h cw ch SR : Z) (d : ImageData) (row col : Z) :
  img_width (nsrPixel mask ox oy w h cw ch SR d row col) = img_width d /\
  img_height (nsrPixel mask ox oy w h cw ch SR d row col) = img_height d.
Proof.
  unfold nsrPixel. destruct (negb (mask (row * w + col))); [split; reflexivity|].
  cbv zeta. destruct (Qlt_bool 0 _); [|split; reflexivity].
  rewrite !wr_width, !wr_height. split; reflexivity.
Qed.

Lemma nsrPixel_changed (mask : Z -> bool) (ox oy w h cw ch SR : Z) (d : ImageData)
      (row col j : Z) :
  img_data (nsrPixel mask ox oy w h cw ch SR d row col) j <> img_data d j ->
  mask (row * w + col) = true /\
  exists k, 0 <= k < 3 /\ j = ((oy + row) * cw + (ox + col)) * 4 + k /\ 0 <= j < img_len d.
Proof.
  unfold nsrPixel. destruct (mask (row * w + col)); cbn [negb]; [|intro H; contradiction].
  cbv zeta. destruct (Qlt_bool 0 _); [|intro H; contradiction].
  set (idx := ((oy + row) * cw + (ox + col)) * 4).
  set (d1 := wr d idx _). set (d2 := wr d1 (idx + 1) _). set (d3 := wr d2 (idx + 2) _).
  intro Hne. split; [reflexivity|].
  assert (L1 : img_len d1 = img_len d) by apply wr_len.
  assert (L2 : img_len d2 = img_len d) by (unfold d2; rewrite wr_len; exact L1).
  destruct (Z.eq_dec (img_data d3 j) (img_data d2 j)) as [E3|E3].
  - destruct (Z.eq_dec (img_data d2 j) (img_data d1 j)) as [E2|E2].
    + assert (E1 : img_data d1 j <> img_data d j) by congruence.
      destruct (wr_changed _ _ _ _ E1) as [-> Hi].
      exists 0. split; [lia|]. split; [ring | lia].
    + destruct (wr_changed _ _ _ _ E2) as [-> Hi].
      exists 1. split; [lia|]. split; [reflexivity | lia].
  - destruct (wr_changed _ _ _ _ E3) as [-> Hi].
    exists 2. split; [lia|]. split; [reflexivity | lia].
Qed.


Lemma removeWatermark_frame_aux (d : ImageData) (alphaMap : list Q)
        (sz ox oy w h cw ch : Z) :
  img_width d = cw -> img_height d = ch ->
  0 <= ox -> 0 <= oy -> ox + w <= cw -> oy + h <= ch ->
  let out := removeWatermarkWithAlphaMap d alphaMap (mkInfo sz ox oy w h) cw ch in
  img_width out = cw /\ img_height out = ch /\
  forall j, img_data out j <> img_data d j -> nsrWritable d alphaMap ox oy w h cw j.
Proof.
  intros Hcw Hch Hox Hoy Hxw Hyh. cbv zeta.
  unfold removeWatermarkWithAlphaMap. cbn [x y width height]. cbv zeta.
  apply (fold_pres_in (fun d' => img_width d' = cw /\ img_height d' = ch /\
           forall j, img_data d' j <> img_data d j -> nsrWritable d alphaMap ox oy w h cw j)).
  2:{ split; [exact Hcw|]. split; [exact Hch|]. intros j Hj. contradiction. }
  intros s row Hrow Ps. apply in_zrange in Hrow.
  apply (fold_pres_in (fun d' => img_width d' = cw /\ img_height d' = ch /\
           forall j, img_data d' j <> img_data d j -> nsrWritable d alphaMap ox oy w h cw j));
    [|exact Ps].
  intros s' col Hcol [W' [H' Hv]]. apply in_zrange in Hcol.
  destruct (nsrPixel_dims (buildMask alphaMap w h) ox oy w h cw ch (Z.max w h + 8) s' row col)
    as [Dw Dh].
  split; [rewrite Dw; exact W'|]. split; [rewrite Dh; exact H'|].
  intros j Hne.
  destruct (Z.eq_dec (img_data (nsrPixel (buildMask alphaMap w h) ox oy w h cw ch
                                  (Z.max w h + 8) s' row col) j) (img_data s' j)) as [E|E].
  - apply Hv. congruence.
  - destruct (nsrPixel_changed _ _ _ _ _ _ _ _ _ _ _ _ E) as [Hm [k [Hk [Hj Hr]]]].
    unfold img_len in Hr. rewrite W', H' in Hr.
    destruct (pix_decode cw (ox + col) (oy + row) k ltac:(lia) ltac:(lia)) as [D1 [D2 D3]].
    rewrite <- Hj in D1, D2, D3. unfold nsrWritable. rewrite D1, D2, D3.
    replace (oy + row - oy) with row by ring.
    replace (ox + col - ox) with col by ring.
    rewrite <- (buildMask_alpha alphaMap w h row col) by lia.
    split; [|split; [lia | split; [lia | split; [lia | exact Hm]]]].
    unfold in_buf, img_len. rewrite Hcw, Hch, andb_true_iff, Z.leb_le, Z.ltb_lt. lia.
Qed.

(** X1: when the region lies inside the image, [removeWatermarkWithAlphaMap]
    keeps the buffer's size and changes only the red, green and blue bytes
    of region pixels whose alpha-map entry exceeds 0.05; every alpha byte and
    every pixel outside the region keeps its value, whatever the alpha map's
    length. *)
Theorem removeWatermarkWithAlphaMap_frame (d : ImageData) (alphaMap : list Q)
        (sz ox oy w h cw ch : Z) :
  img_width d = cw -> img_height d = ch ->
  0 <= ox -> 0 <= oy -> ox + w <= cw -> oy + h <= ch ->
  let out := removeWatermarkWithAlphaMap d alphaMap (mkInfo sz ox oy w h) cw ch in
  img_width out = cw /\ img_height out = ch /\
  forall j, img_data out j <> img_data d j -> nsrWritable d alphaMap ox oy w h cw j.
Proof.
  exact (removeWatermark_frame_aux d alphaMap sz ox oy w h cw ch).
Qed.

Lemma removeWatermarkWithAlphaMap_frame_witness :
  let d := mkImageData 4 4 (fun i => i mod 256) in
  let out := removeWatermarkWithAlphaMap d (1 :: 0 :: nil)%Q (mkInfo 2 1 1 2 2) 4 4 in
  img_width out = 4 /\ img_height out = 4 /\
  forall j, img_data out j <> img_data d j -> nsrWritable d (1 :: 0 :: nil)%Q 1 1 2 2 4 j.
Proof.
  intro d.
  exact (removeWatermarkWithAlphaMap_frame d (1 :: 0 :: nil)%Q 2 1 1 2 2 4 4
           eq_refl eq_refl ltac:(lia) ltac:(lia) ltac:(lia) ltac:(lia)).
Defined.

(** X2: an alpha map none of whose entries exceeds 0.05 (an empty or blank
    one included) makes [removeWatermarkWithAlphaMap] return the buffer
    unchanged, for every region. *)
Theorem removeWatermarkWithAlphaMap_no_mask (d : ImageData) (alphaMap : list Q)
        (info : WatermarkInfo) (cw ch : Z) :
  (forall a, In a alphaMap -> (a <= 1 # 20)%Q) ->
  removeWatermarkWithAlphaMap d alphaMap info cw ch = d.
Proof.
  intro Ha.
  assert (Hg : forall i, alpha_gt alphaMap i = false).
  { intro i. unfold alpha_gt, alpha_at. destruct (0 <=? i); [|reflexivity].
    destruct (nth_error alphaMap (Z.to_nat i)) as [a|] eqn:E; [|reflexivity].
    apply Qlt_bool_false, Ha. apply nth_error_In with (n := Z.to_nat i), E. }
  assert (Hm : forall w h j, buildMask alphaMap w h j = false).
  { intros w h j. rewrite buildMask_exists.
    apply not_true_is_false. intro Hex.
    apply existsb_exists in Hex. destruct Hex as [r [_ Hex]].
    apply existsb_exists in Hex. destruct Hex as [c [_ Hex]].
    rewrite Hg in Hex. discriminate. }
  unfold removeWatermarkWithAlphaMap. cbv zeta.
  apply (fold_pres_in (fun d' => d' = d)); [|reflexivity].
  intros s row _ ->.
  apply (fold_pres_in (fun d' => d' = d)); [|reflexivity].
  intros s' col _ ->. unfold nsrPixel. rewrite Hm. reflexivity.
Qed.

Lemma removeWatermarkWithAlphaMap_no_mask_witness :
  (forall a, In a (0 :: 1 # 20 :: nil)%Q -> (a <= 1 # 20)%Q) /\
  removeWatermarkWithAlphaMap (mkImageData 4 4 (fun i => i)) (0 :: 1 # 20 :: nil)%Q
    (mkInfo 2 1 1 2 2) 4 4 = mkImageData 4 4 (fun i => i).
Proof.
  assert (H : forall a, In a (0 :: 1 # 20 :: nil)%Q -> (a <= 1 # 20)%Q).
  { intros a [<-|[<-|[]]]; unfold Qle; simpl; lia. }
  split; [exact H|].
  exact (removeWatermarkWithAlphaMap_no_mask (mkImageData 4 4 (fun i => i)) _
           (mkInfo 2 1 1 2 2) 4 4 H).
Defined.

Lemma putImageData_changed (c : Canvas) (d : ImageData) (dx dy j : Z) :
  img_data (putImageData c d dx dy) j <> img_data c j ->
  in_buf c j && in_rect dx dy (img_width d) (img_height d)
                  (pix_x (img_width c) j) (pix_y (img_width c) j) = true.
Proof.
  unfold putImageData. cbn [img_data].
  destruct (in_buf c j && in_rect dx dy (img_width d) (img_height d)
              (pix_x (img_width c) j) (pix_y (img_width c) j)); [reflexivity|].
  intro H. contradiction.
Qed.

Lemma in_buf_pos (c : Canvas) (j : Z) :
  0 <= img_width c -> in_buf c j = true ->
  0 < img_width c /\ 0 <= pix_x (img_width c) j < img_width c /\
  0 <= pix_y (img_width c) j < img_height c /\
  j = (pix_y (img_width c) j * img_width c + pix_x (img_width c) j) * 4 + chan j.
Proof.
  intros HW Hb. unfold in_buf, img_len in Hb.
  rewrite andb_true_iff, Z.leb_le, Z.ltb_lt in Hb.
  assert (HW' : 0 < img_width c).
  { destruct (Z.eq_dec (img_width c) 0) as [E|E]; [|lia].
    rewrite E in Hb. simpl in Hb. lia. }
  destruct (pix_bounds _ j HW') as [Hx Hk].
  pose proof (pix_encode _ j HW') as He.
  split; [exact HW'|]. split; [exact Hx|]. split; [|exact He].
  unfold pix_y. split.
  - apply Z.div_pos; [apply Z.div_pos|]; lia.
  - apply Z.div_lt_upper_bound; [lia|]. apply Z.div_lt_upper_bound; lia.
Qed.

Lemma getImageData_full_at (c : Canvas) (j : Z) :
  0 <= img_width c -> in_buf c j = true ->
  img_data (getImageData c 0 0 (img_width c) (img_height c)) j = img_data c j.
Proof.
  intros HW Hb. destruct (in_buf_pos c j HW Hb) as [HW' [Hx [Hy He]]].
  assert (Hb' := Hb). unfold in_buf, img_len in Hb'.
  unfold getImageData. cbn [img_data]. rewrite Hb'. cbv zeta.
  rewrite !Z.add_0_l.
  replace (in_rect 0 0 (img_width c) (img_height c) (pix_x (img_width c) j) (pix_y (img_width c) j))
    with true by (symmetry; unfold in_rect; rewrite !andb_true_iff, !Z.leb_le, !Z.ltb_lt; lia).
  rewrite <- He. reflexivity.
Qed.

Lemma applyInpaint_frame_aux (c : Canvas) (rnd : Z -> Q) (x0 y0 w h cw ch : Z) :
  img_width (applyInpaint c rnd x0 y0 w h cw ch) = img_width c /\
  img_height (applyInpaint c rnd x0 y0 w h cw ch) = img_height c /\
  forall j, in_rect x0 y0 w h (pix_x (img_width c) j) (pix_y (img_width c) j) = false ->
    img_data (applyInpaint c rnd x0 y0 w h cw ch) j = img_data c j.
Proof.
  unfold applyInpaint.
  destruct (borderPixels c x0 y0 w h cw ch) as [|p ps]; [split; [|split]; reflexivity|].
  cbv zeta. unfold applyBoxBlur. cbv zeta.
  set (c1 := putImageData c (inpaintFill (avgOf (p :: ps)) rnd w h) x0 y0).
  destruct (blur_passes_dims x0 y0 w h (Z.max 1 (5 / 2)) (Z.to_nat 2) c1) as [Dw Dh].
  rewrite Dw, Dh. split; [reflexivity|]. split; [reflexivity|].
  intros j Hj.
  rewrite blur_passes_frame by (unfold c1; cbn [img_width putImageData]; rewrite Hj, andb_false_r; reflexivity).
  destruct (Z.eq_dec (img_data c1 j) (img_data c j)) as [E|E]; [exact E|].
  apply putImageData_changed in E.
  destruct (avgOf (p :: ps)) as [[[a0 a1] a2] a3]. cbn [img_width img_height inpaintFill] in E.
  rewrite Hj, andb_false_r in E. discriminate.
Qed.

(** X3: [applyInpaint] keeps the canvas size and never changes a pixel
    outside its [w x h] rectangle at [(x0, y0)], wherever its border samples
    come from and whatever [Math.random()] returns. *)
Theorem applyInpaint_frame (c : Canvas) (rnd : Z -> Q) (x0 y0 w h cw ch : Z) :
  img_width (applyInpaint c rnd x0 y0 w h cw ch) = img_width c /\
  img_height (applyInpaint c rnd x0 y0 w h cw ch) = img_height c /\
  forall j, in_rect x0 y0 w h (pix_x (img_width c) j) (pix_y (img_width c) j) = false ->
    img_data (applyInpaint c rnd x0 y0 w h cw ch) j = img_data c j.
Proof. exact (applyInpaint_frame_aux c rnd x0 y0 w h cw ch). Qed.

Lemma info_inside (W H : Z) :
  80 <= W -> 80 <= H ->
  let i := getWatermarkInfo W H in
  0 <= x i /\ 0 <= y i /\ x i + width i <= W /\ y i + height i <= H /\
  0 < width i /\ 0 < height i.
Proof.
  intros HW HH. unfold getWatermarkInfo. cbv zeta.
  destruct ((1024 <? W) && (1024 <? H)) eqn:E; cbn [x y width height].
  - rewrite andb_true_iff, !Z.ltb_lt in E. lia.
  - lia.
Qed.

Lemma info_eta (i : WatermarkInfo) : i = mkInfo (size i) (x i) (y i) (width i) (height i).
Proof. destruct i. reflexivity. Qed.

Lemma blur_dims (c : Canvas) (x0 y0 w h radius passes : Z) :
  img_width (applyBoxBlur c x0 y0 w h radius passes) = img_width c /\
  img_height (applyBoxBlur c x0 y0 w h radius passes) = img_height c.
Proof. unfold applyBoxBlur. apply blur_passes_dims. Qed.

Lemma blur_frame (c : Canvas) (x0 y0 w h radius passes j : Z) :
  in_rect x0 y0 w h (pix_x (img_width c) j) (pix_y (img_width c) j) = false ->
  img_data (applyBoxBlur c x0 y0 w h radius passes) j = img_data c j.
Proof.
  intro Hj. unfold applyBoxBlur. apply blur_passes_frame. rewrite Hj, andb_false_r. reflexivity.
Qed.

Lemma fillRect_dims (c : Canvas) (ga : Q) (col : Z * Z * Z) (x0 y0 w h : Z) :
  img_width (fillRect c ga col x0 y0 w h) = img_width c /\
  img_height (fillRect c ga col x0 y0 w h) = img_height c.
Proof. unfold fillRect. destruct col as [[cr cg] cb]. split; reflexivity. Qed.

(** Writing back the reconstructed full-canvas buffer at [(0, 0)] changes
    only masked pixels of the region. *)
Lemma put_remove_frame (c : Canvas) (alphaMap : list Q) (info : WatermarkInfo) (j : Z) :
  0 <= x info -> 0 <= y info -> 0 <= width info ->
  x info + width info <= img_width c -> y info + height info <= img_height c ->
  in_rect (x info) (y info) (width info) (height info)
          (pix_x (img_width c) j) (pix_y (img_width c) j) = false ->
  img_data (putImageData c (removeWatermarkWithAlphaMap
              (getImageData c 0 0 (img_width c) (img_height c)) alphaMap info
              (img_width c) (img_height c)) 0 0) j = img_data c j.
Proof.
  intros Hx Hy Hw0 Hxw Hyh Hj.
  set (W := img_width c) in *. set (H := img_height c) in *.
  rewrite (info_eta info).
  destruct (removeWatermark_frame_aux (getImageData c 0 0 W H) alphaMap (size info)
              (x info) (y info) (width info) (height info) W H eq_refl eq_refl Hx Hy Hxw Hyh)
    as [Ow [Oh Ov]].
  set (out := removeWatermarkWithAlphaMap _ _ _ _ _) in *.
  unfold putImageData. cbn [img_data img_width img_height]. fold W. rewrite Ow, Oh.
  destruct (in_buf c j) eqn:Hb; [|reflexivity].
  assert (HW : 0 <= W) by lia.
  destruct (in_buf_pos c j HW Hb) as [HW' [HX [HY He]]]. fold W in HX, HY, He.
  replace (in_rect 0 0 W H (pix_x W j) (pix_y W j)) with true
    by (symmetry; unfold in_rect; rewrite !andb_true_iff, !Z.leb_le, !Z.ltb_lt; lia).
  cbn [andb]. rewrite !Z.sub_0_r, <- He.
  destruct (Z.eq_dec (img_data out j) (img_data (getImageData c 0 0 W H) j)) as [E|E].
  - rewrite E. apply getImageData_full_at; assumption.
  - exfalso. destruct (Ov j E) as [_ [_ [Hr [Hc _]]]].
    unfold in_rect in Hj. rewrite <- not_true_iff_false in Hj. apply Hj.
    rewrite !andb_true_iff, !Z.leb_le, !Z.ltb_lt. lia.
Qed.

Lemma process_frame_aux (c : Canvas) (s : Settings) (asset : option (list Q)) (rnd : Z -> Q) :
  80 <= img_width c -> 80 <= img_height c ->
  let info := getWatermarkInfo (img_width c) (img_height c) in
  let out := process c s asset rnd in
  img_width out = img_width c /\ img_height out = img_height c /\
  forall j, in_rect (x info) (y info) (width info) (height info)
                    (pix_x (img_width c) j) (pix_y (img_width c) j) = false ->
    img_data out j = img_data c j.
Proof.
  intros HW HH. cbv zeta.
  destruct (info_inside _ _ HW HH) as [Hx [Hy [Hxw [Hyh [Hw0 _]]]]].
  set (info := getWatermarkInfo (img_width c) (img_height c)) in *.
  unfold process. fold info.
  destruct (method s).
  - destruct (blur_dims c (x info) (y info) (width info) (height info) (blurRadius s) 4)
      as [Dw Dh].
    split; [exact Dw|]. split; [exact Dh|]. intros j Hj. apply blur_frame, Hj.
  - destruct (fillRect_dims c (opacity s) (coverColor s) (x info) (y info) (width info)
                (height info)) as [Dw Dh].
    split; [exact Dw|]. split; [exact Dh|]. intros j Hj.
    apply fillRect_frame. rewrite Hj, andb_false_r. reflexivity.
  - destruct asset as [am|].
    + set (c1 := putImageData c _ 0 0).
      destruct (blur_dims c1 (x info) (y info) (width info) (height info) 3 2) as [Dw Dh].
      rewrite Dw, Dh. split; [reflexivity|]. split; [reflexivity|].
      intros j Hj. rewrite blur_frame by exact Hj.
      apply put_remove_frame; (assumption || lia).
    + apply applyInpaint_frame_aux.
  - destruct asset as [am|].
    + set (c1 := putImageData c _ 0 0).
      destruct (blur_dims c1 (x info) (y info) (width info) (height info) 3 2) as [Dw Dh].
      rewrite Dw, Dh. split; [reflexivity|]. split; [reflexivity|].
      intros j Hj. rewrite blur_frame by exact Hj.
      apply put_remove_frame; (assumption || lia).
    + apply applyInpaint_frame_aux.
Qed.

(** X4: for an image of at least 80 x 80 pixels, [process] keeps the canvas
    size and leaves every pixel outside the watermark rectangle of
    [getWatermarkInfo] unchanged, for every method, every outcome of the
    alpha-map load and every value of [Math.random()]. *)
Theorem process_frame (c : Canvas) (s : Settings) (asset : option (list Q)) (rnd : Z -> Q) :
  80 <= img_width c -> 80 <= img_height c ->
  let info := getWatermarkInfo (img_width c) (img_height c) in
  let out := process c s asset rnd in
  img_width out = img_width c /\ img_height out = img_height c /\
  forall j, in_rect (x info) (y info) (width info) (height info)
                    (pix_x (img_width c) j) (pix_y (img_width c) j) = false ->
    img_data out j = img_data c j.
Proof. exact (process_frame_aux c s asset rnd). Qed.

Lemma process_frame_witness :
  let c := mkImageData 100 100 (fun i => i mod 256) in
  let s := mkSettings 10 (0, 0, 0) Remove 1 in
  let info := getWatermarkInfo (img_width c) (img_height c) in
  let out := process c s (Some (repeat 1%Q 2304)) (fun _ => 0%Q) in
  img_width out = img_width c /\ img_height out = img_height c /\
  forall j, in_rect (x info) (y info) (width info) (height info)
                    (pix_x (img_width c) j) (pix_y (img_width c) j) = false ->
    img_data out j = img_data c j.
Proof.
  exact (process_frame (mkImageData 100 100 (fun i => i mod 256)) (mkSettings 10 (0, 0, 0) Remove 1)
           (Some (repeat 1%Q 2304)) (fun _ => 0%Q) ltac:(cbn; lia) ltac:(cbn; lia)).
Defined.

Lemma to_uint8_clamp_between (q : Q) (lo hi : Z) :
  (inject_Z lo <= q <= inject_Z hi)%Q -> 0 <= lo -> hi <= 255 ->
  lo <= to_uint8_clamp (Some q) <= hi.
Proof.
  intros [Hl Hh] Hlo Hhi.
  assert (Hlh : lo <= hi) by (rewrite Zle_Qle; lra).
  unfold to_uint8_clamp.
  destruct (Qle_bool q 0) eqn:E1.
  { apply Qle_bool_iff in E1.
    assert (lo <= 0) by (rewrite Zle_Qle; change (inject_Z 0) with 0%Q; lra). lia. }
  destruct (Qle_bool 255 q) eqn:E2.
  { apply Qle_bool_iff in E2.
    assert (255 <= hi) by (rewrite Zle_Qle; change (inject_Z 255) with 255%Q; lra). lia. }
  cbv zeta.
  assert (F1 : lo <= Qfloor q) by (rewrite <- (Qfloor_Z lo); apply Qfloor_resp_le, Hl).
  assert (F2 : Qfloor q <= hi) by (rewrite <- (Qfloor_Z hi); apply Qfloor_resp_le, Hh).
  assert (Up : Qlt_bool (q - inject_Z (Qfloor q)) (1 # 2) = false -> Qfloor q + 1 <= hi).
  { intro E. apply Qlt_bool_false in E.
    assert (Qfloor q < hi); [|lia].
    rewrite Zlt_Qlt. lra. }
  destruct (Qlt_bool (q - inject_Z (Qfloor q)) (1 # 2)) eqn:E3; [lia|].
  specialize (Up eq_refl).
  destruct (Qlt_bool (1 # 2) (q - inject_Z (Qfloor q))); [lia|].
  destruct (Z.even (Qfloor q)); lia.
Qed.

Lemma fold_snd_count {A : Type} (f : Z * Z -> A -> Z * Z) (m : Z) (L : list A) :
  (forall acc e, snd (f acc e) = snd acc + m) ->
  forall acc, snd (fold_left f L acc) = snd acc + m * Z.of_nat (length L).
Proof.
  intro H. induction L as [|e L IH]; intro acc; simpl; [lia|].
  rewrite IH, H. lia.
Qed.

Lemma zsteps_unit_length (r : Z) : 0 <= r -> length (zsteps (- r) r 1) = Z.to_nat (2 * r + 1).
Proof.
  intro Hr. unfold zsteps. rewrite length_map, length_seq.
  f_equal. rewrite Z.div_1_r. lia.
Qed.

Lemma blur_sum_bounds (src : Z -> Z) (w h r px py k lo hi : Z) :
  0 < w -> 0 < h -> 0 <= r ->
  (forall nx ny, 0 <= nx < w -> 0 <= ny < h -> lo <= src ((ny * w + nx) * 4 + k) <= hi) ->
  let '(s, n) := blur_sum src w h r px py k in lo * n <= s <= hi * n /\ 0 < n.
Proof.
  intros Hw Hh Hr Hsrc. unfold blur_sum.
  set (L := zsteps (- r) r 1).
  assert (Hlen : (0 < length L)%nat) by (unfold L; rewrite zsteps_unit_length; lia).
  match goal with |- context [fold_left ?F L (0, 0)] =>
    assert (Hcnt : snd (fold_left F L (0, 0)) =
                   0 + Z.of_nat (length L) * Z.of_nat (length L));
    [ apply (fold_snd_count F (Z.of_nat (length L)));
      intros acc ky; cbv beta;
      rewrite (fold_snd_count _ 1); [lia|]; intros [s n] kx; reflexivity
    | ];
    assert (Hb : (fun '(s, n) => lo * n <= s <= hi * n) (fold_left F L (0, 0)));
    [ apply fold_pres; [|lia];
      intros acc ky Hacc; cbv beta;
      apply fold_pres; [|exact Hacc];
      intros [s n] kx Hsn; cbv beta iota zeta;
      match goal with |- context [src ?e] =>
        assert (Hv : lo <= src e <= hi) by (apply Hsrc; lia) end;
      lia
    | ];
    destruct (fold_left F L (0, 0)) as [s n]
  end.
  cbn [snd] in Hcnt. split; [exact Hb | nia].
Qed.

Lemma put_at (c : Canvas) (d : ImageData) (dx dy j : Z) :
  in_buf c j = true ->
  in_rect dx dy (img_width d) (img_height d) (pix_x (img_width c) j) (pix_y (img_width c) j) = true ->
  img_data (putImageData c d dx dy) j =
  img_data d (((pix_y (img_width c) j - dy) * img_width d + (pix_x (img_width c) j - dx)) * 4 + chan j).
Proof. intros H1 H2. unfold putImageData. cbn [img_data]. cbv zeta. rewrite H1, H2. reflexivity. Qed.

Lemma blur_pass_at (d : ImageData) (r i : Z) :
  in_buf d i = true ->
  img_data (blur_pass d r) i =
  (let '(s, n) := blur_sum (img_data d) (img_width d) (img_height d) r
                    (pix_x (img_width d) i) (pix_y (img_width d) i) (chan i) in
   to_uint8_clamp (Some (inject_Z s / inject_Z n)%Q)).
Proof. intro H. unfold blur_pass. cbv zeta. cbn [img_data]. rewrite H. reflexivity. Qed.

Lemma get_at (c : Canvas) (sx sy sw sh i : Z) :
  0 <= i < sw * sh * 4 ->
  img_data (getImageData c sx sy sw sh) i =
  if in_rect 0 0 (img_width c) (img_height c) (sx + pix_x sw i) (sy + pix_y sw i)
  then img_data c (((sy + pix_y sw i) * img_width c + (sx + pix_x sw i)) * 4 + chan i)
  else 0.
Proof.
  intro Hi. unfold getImageData. cbn [img_data]. cbv zeta.
  replace ((0 <=? i) && (i <? sw * sh * 4)) with true
    by (symmetry; rewrite andb_true_iff, Z.leb_le, Z.ltb_lt; lia).
  reflexivity.
Qed.

Section BlurBounds.

Variables (W H x0 y0 w h k lo hi : Z).

Hypotheses (Hx0 : 0 <= x0) (Hy0 : 0 <= y0) (Hw : 0 < w) (Hh : 0 < h)
  (Hxw : x0 + w <= W) (Hyh : y0 + h <= H) (Hk : 0 <= k < 4)
  (Hlo : 0 <= lo) (Hhi : hi <= 255).

Lemma blur_pass_bounded (c : Canvas) (r : Z) :
  img_width c = W -> img_height c = H -> 0 <= r ->
  chanBounded c x0 y0 w h k lo hi ->
  chanBounded (putImageData c (blur_pass (getImageData c x0 y0 w h) r) x0 y0) x0 y0 w h k lo hi.
Proof.
  intros EW EH Hr Hc j Hb Hin Hcj.
  change (in_buf c j = true) in Hb.
  change (in_rect x0 y0 w h (pix_x (img_width c) j) (pix_y (img_width c) j) = true) in Hin.
  set (g := getImageData c x0 y0 w h).
  rewrite put_at by (exact Hb || exact Hin).
  change (img_width (blur_pass g r)) with w.
  rewrite EW in Hin |- *.
  unfold in_rect in Hin. rewrite !andb_true_iff, !Z.leb_le, !Z.ltb_lt in Hin.
  set (X := pix_x W j) in *. set (Y := pix_y W j) in *.
  pose proof (pix_bounds W j ltac:(lia)) as [_ Hch].
  destruct (pix_decode w (X - x0) (Y - y0) (chan j) ltac:(lia) Hch) as [D1 [D2 D3]].
  rewrite blur_pass_at.
  2:{ unfold in_buf, img_len. change (img_width g) with w. change (img_height g) with h.
      rewrite andb_true_iff, Z.leb_le, Z.ltb_lt. split; nia. }
  change (img_width g) with w. change (img_height g) with h.
  rewrite D1, D2, D3, Hcj.
  pose proof (blur_sum_bounds (img_data g) w h r (X - x0) (Y - y0) k lo hi Hw Hh Hr) as Hs.
  destruct (blur_sum (img_data g) w h r (X - x0) (Y - y0) k) as [s n].
  destruct Hs as [[Hs1 Hs2] Hn].
  - intros nx ny Hnx Hny. unfold g.
    rewrite get_at by (split; nia).
    destruct (pix_decode w nx ny k ltac:(lia) Hk) as [E1 [E2 E3]].
    rewrite E1, E2, E3.
    replace (in_rect 0 0 (img_width c) (img_height c) (x0 + nx) (y0 + ny)) with true
      by (symmetry; unfold in_rect; rewrite EW, EH, !andb_true_iff, !Z.leb_le, !Z.ltb_lt; lia).
    rewrite EW.
    destruct (pix_decode W (x0 + nx) (y0 + ny) k ltac:(lia) Hk) as [F1 [F2 F3]].
    apply Hc.
    + unfold in_buf, img_len. rewrite EW, EH, andb_true_iff, Z.leb_le, Z.ltb_lt. split; nia.
    + rewrite EW, F1, F2. unfold in_rect. rewrite !andb_true_iff, !Z.leb_le, !Z.ltb_lt. lia.
    + exact F3.
  - apply to_uint8_clamp_between; [|exact Hlo|exact Hhi].
    split.
    + apply Qle_shift_div_l; [unfold Qlt; simpl; lia|].
      rewrite <- inject_Z_mult, <- Zle_Qle. lia.
    + apply Qle_shift_div_r; [unfold Qlt; simpl; lia|].
      rewrite <- inject_Z_mult, <- Zle_Qle. lia.
Qed.

Lemma blur_passes_bounded (n : nat) (c : Canvas) (r : Z) :
  img_width c = W -> img_height c = H -> 0 <= r ->
  chanBounded c x0 y0 w h k lo hi ->
  chanBounded (blur_passes n c x0 y0 w h r) x0 y0 w h k lo hi.
Proof.
  revert c. induction n as [|n IH]; intros c EW EH Hr Hc; [exact Hc|].
  simpl. apply IH; [exact EW|exact EH|exact Hr|].
  apply blur_pass_bounded; assumption.
Qed.

End BlurBounds.

Lemma applyBoxBlur_bounds_aux (c : Canvas) (x0 y0 w h radius passes k lo hi : Z) :
  0 <= x0 -> 0 <= y0 -> 0 < w -> 0 < h ->
  x0 + w <= img_width c -> y0 + h <= img_height c ->
  0 <= k < 4 -> 0 <= lo -> hi <= 255 ->
  chanBounded c x0 y0 w h k lo hi ->
  let out := applyBoxBlur c x0 y0 w h radius passes in
  img_width out = img_width c /\ img_height out = img_height c /\
  chanBounded out x0 y0 w h k lo hi.
Proof.
  intros Hx Hy Hw Hh Hxw Hyh Hk Hlo Hhi Hc. cbv zeta.
  destruct (blur_dims c x0 y0 w h radius passes) as [D1 D2].
  split; [exact D1|split; [exact D2|]].
  unfold applyBoxBlur.
  apply (blur_passes_bounded (img_width c) (img_height c) x0 y0 w h k lo hi);
    (reflexivity || assumption || lia).
Qed.

(** X5: Every pass of [applyBoxBlur] replaces a region value by the mean of
    region values of the same channel, so if one channel of the region lies in
    [lo..hi] before the blur, it still lies in [lo..hi] after it; the canvas
    keeps its size. *)
Theorem applyBoxBlur_channel_bounds (c : Canvas) (x0 y0 w h radius passes k lo hi : Z) :
  0 <= x0 -> 0 <= y0 -> 0 < w -> 0 < h ->
  x0 + w <= img_width c -> y0 + h <= img_height c ->
  0 <= k < 4 -> 0 <= lo -> hi <= 255 ->
  chanBounded c x0 y0 w h k lo hi ->
  let out := applyBoxBlur c x0 y0 w h radius passes in
  img_width out = img_width c /\ img_height out = img_height c /\
  chanBounded out x0 y0 w h k lo hi.
Proof. exact (applyBoxBlur_bounds_aux c x0 y0 w h radius passes k lo hi). Qed.

Lemma applyBoxBlur_channel_bounds_witness :
  let c := mkImageData 4 4 (fun i => 50 + i mod 50) in
  let out := applyBoxBlur c 1 1 2 2 5 2 in
  img_width out = img_width c /\ img_height out = img_height c /\
  chanBounded out 1 1 2 2 0 50 99.
Proof.
  refine (applyBoxBlur_channel_bounds (mkImageData 4 4 (fun i => 50 + i mod 50)) 1 1 2 2 5 2 0 50 99
            ltac:(lia) ltac:(lia) ltac:(lia) ltac:(lia) ltac:(cbn; lia) ltac:(cbn; lia)
            ltac:(lia) ltac:(lia) ltac:(lia) _).
  intros j _ _ _. cbn [img_data]. pose proof (Z.mod_pos_bound j 50 ltac:(lia)). lia.
Defined.

Lemma inpaintFill_dims (avg : Q * Q * Q * Q) (rnd : Z -> Q) (w h : Z) :
  img_width (inpaintFill avg rnd w h) = w /\ img_height (inpaintFill avg rnd w h) = h.
Proof. destruct avg as [[[a0 a1] a2] a3]. split; reflexivity. Qed.

Lemma inpaintFill_alpha (avg : Q * Q * Q * Q) (rnd : Z -> Q) (w h i : Z) :
  0 <= i < w * h * 4 -> chan i = 3 -> img_data (inpaintFill avg rnd w h) i = 255.
Proof.
  intros Hi Hc. destruct avg as [[[a0 a1] a2] a3].
  unfold inpaintFill. cbn [img_data]. cbv zeta.
  replace ((0 <=? i) && (i <? w * h * 4)) with true
    by (symmetry; rewrite andb_true_iff, Z.leb_le, Z.ltb_lt; lia).
  rewrite Hc. reflexivity.
Qed.

Lemma applyInpaint_opaque_aux (c : Canvas) (rnd : Z -> Q) (x0 y0 w h : Z) :
  0 <= x0 -> 0 <= y0 -> 0 < w -> 0 < h ->
  x0 + w <= img_width c -> y0 + h <= img_height c ->
  borderPixels c x0 y0 w h (img_width c) (img_height c) <> [] ->
  forall j, in_buf c j = true ->
    in_rect x0 y0 w h (pix_x (img_width c) j) (pix_y (img_width c) j) = true ->
    chan j = 3 ->
    img_data (applyInpaint c rnd x0 y0 w h (img_width c) (img_height c)) j = 255.
Proof.
  intros Hx Hy Hw Hh Hxw Hyh Hne j Hb Hin Hcj.
  unfold applyInpaint.
  destruct (borderPixels c x0 y0 w h (img_width c) (img_height c)) as [|p ps]; [congruence|].
  set (f := inpaintFill (avgOf (p :: ps)) rnd w h).
  destruct (inpaintFill_dims (avgOf (p :: ps)) rnd w h) as [Fw Fh].
  fold f in Fw, Fh.
  set (c1 := putImageData c f x0 y0).
  assert (Hc1 : chanBounded c1 x0 y0 w h 3 255 255).
  { intros i Hbi Hini Hci.
    change (in_buf c i = true) in Hbi.
    change (in_rect x0 y0 w h (pix_x (img_width c) i) (pix_y (img_width c) i) = true) in Hini.
    unfold c1. rewrite put_at; [|exact Hbi|rewrite Fw, Fh; exact Hini].
    rewrite Fw.
    unfold in_rect in Hini. rewrite !andb_true_iff, !Z.leb_le, !Z.ltb_lt in Hini.
    pose proof (pix_bounds (img_width c) i ltac:(lia)) as [_ Hch].
    destruct (pix_decode w (pix_x (img_width c) i - x0) (pix_y (img_width c) i - y0) (chan i)
                ltac:(lia) Hch) as [_ [_ D3]].
    unfold f. rewrite inpaintFill_alpha; [lia|split; nia|rewrite D3; exact Hci]. }
  destruct (applyBoxBlur_bounds_aux c1 x0 y0 w h 5 2 3 255 255 Hx Hy Hw Hh Hxw Hyh
              ltac:(lia) ltac:(lia) ltac:(lia) Hc1) as [D1 [D2 Hout]].
  cbv zeta in D1, D2, Hout.
  assert (Hb2 : in_buf (applyBoxBlur c1 x0 y0 w h 5 2) j = true)
    by (unfold in_buf, img_len in *; rewrite D1, D2; exact Hb).
  assert (Hin2 : in_rect x0 y0 w h (pix_x (img_width (applyBoxBlur c1 x0 y0 w h 5 2)) j)
                   (pix_y (img_width (applyBoxBlur c1 x0 y0 w h 5 2)) j) = true)
    by (rewrite D1; exact Hin).
  pose proof (Hout j Hb2 Hin2 Hcj). lia.
Qed.

(** X6: When [applyInpaint] finds border samples, every pixel of the region
    (inside the canvas) ends fully opaque: the fill writes alpha 255 and the
    box blur that follows averages alpha values that are all 255. *)
Theorem applyInpaint_opaque (c : Canvas) (rnd : Z -> Q) (x0 y0 w h : Z) :
  0 <= x0 -> 0 <= y0 -> 0 < w -> 0 < h ->
  x0 + w <= img_width c -> y0 + h <= img_height c ->
  borderPixels c x0 y0 w h (img_width c) (img_height c) <> [] ->
  forall j, in_buf c j = true ->
    in_rect x0 y0 w h (pix_x (img_width c) j) (pix_y (img_width c) j) = true ->
    chan j = 3 ->
    img_data (applyInpaint c rnd x0 y0 w h (img_width c) (img_height c)) j = 255.
Proof. exact (applyInpaint_opaque_aux c rnd x0 y0 w h). Qed.

Lemma applyInpaint_opaque_witness :
  let c := mkImageData 12 12 (fun i => i mod 256) in
  img_data (applyInpaint c (fun _ => 0%Q) 4 4 3 3 12 12) (((5 * 12) + 5) * 4 + 3) = 255.
Proof.
  exact (applyInpaint_opaque (mkImageData 12 12 (fun i => i mod 256)) (fun _ => 0%Q) 4 4 3 3
           ltac:(lia) ltac:(lia) ltac:(lia) ltac:(lia) ltac:(cbn; lia) ltac:(cbn; lia)
           ltac:(vm_compute; discriminate) (((5 * 12) + 5) * 4 + 3)
           ltac:(vm_compute; reflexivity) ltac:(vm_compute; reflexivity) ltac:(vm_compute; reflexivity)).
Defined.

(** ** Loaders *)

Lemma canvasBlobFallback_no_co (br : Browser) (src s : String.string) :
  ~ In (ImgLoad s true) (fst (canvasBlobFallback br src)).
Proof.
  unfold canvasBlobFallback.
  destruct (fetch br src) as [res|]; [destruct (blob res) as [b|]; [destruct (loadImage br (createObjectURL br b) false)|]|];
    cbn; intuition congruence.
Qed.

Lemma canvasBlobFallback_fetch (br : Browser) (src s : String.string) :
  In (FetchCall s) (fst (canvasBlobFallback br src)) -> s = src.
Proof.
  unfold canvasBlobFallback.
  destruct (fetch br src) as [res|]; [destruct (blob res) as [b|]; [destruct (loadImage br (createObjectURL br b) false)|]|];
    cbn; intuition congruence.
Qed.

Lemma canvasBlobFallback_fetched (br : Browser) (src : String.string) :
  In (FetchCall src) (fst (canvasBlobFallback br src)).
Proof.
  unfold canvasBlobFallback.
  destruct (fetch br src) as [res|]; [destruct (blob res) as [b|]; [destruct (loadImage br (createObjectURL br b) false)|]|];
    cbn; auto.
Qed.

Lemma canvasBlobFallback_counts (br : Browser) (src : String.string) :
  countEv isCreate (fst (canvasBlobFallback br src)) = countEv isRevoke (fst (canvasBlobFallback br src)) /\
  (countEv isCreate (fst (canvasBlobFallback br src)) <= 1)%nat.
Proof.
  unfold canvasBlobFallback.
  destruct (fetch br src) as [res|]; [destruct (blob res) as [b|]; [destruct (loadImage br (createObjectURL br b) false)|]|];
    cbn; lia.
Qed.

Lemma getImageData_bytes (c : Canvas) (sx sy sw sh : Z) :
  (forall i, 0 <= img_data c i <= 255) ->
  forall i, 0 <= img_data (getImageData c sx sy sw sh) i <= 255.
Proof.
  intros Hc i. unfold getImageData. cbn [img_data]. cbv zeta.
  destruct ((0 <=? i) && (i <? sw * sh * 4)); [|lia].
  destruct (in_rect _ _ _ _ _ _); [apply Hc|lia].
Qed.

Lemma extractFromImg_shape (br : Browser) (size : Z) (img : ImgElem) (am : list Q) :
  (forall i, 0 <= drawScaled br img size i <= 255) ->
  extractFromImg br size img = Resolved am ->
  length am = Z.to_nat (size * size) /\ forall q, In q am -> (0 <= q <= 1)%Q.
Proof.
  intros Hb E. unfold extractFromImg in E.
  destruct (has2d br); [|discriminate].
  injection E as <-.
  set (g := getImageData (mkImageData size size (drawScaled br img size)) 0 0 size size).
  assert (Hg : forall i, 0 <= img_data g i <= 255) by (apply getImageData_bytes; exact Hb).
  unfold calculateAlphaMap. split.
  - rewrite length_map, length_seq. reflexivity.
  - intros q Hq. apply in_map_iff in Hq as [k [<- _]].
    assert (Hm := max3_bounds _ _ _ (Hg (Z.of_nat k * 4)) (Hg (Z.of_nat k * 4 + 1)) (Hg (Z.of_nat k * 4 + 2))).
    cbv zeta in *. split; unfold Qle; cbn [Qnum Qden]; lia.
Qed.

(** X7: [loadImageToCanvas] asks for [crossOrigin] on one image only, the one
    loading [src] itself, and never when [src] is a [data:] URL; the retry and
    the blob image load without it. *)
Theorem loadImageToCanvas_crossOrigin (br : Browser) (src s : String.string) :
  In (ImgLoad s true) (fst (loadImageToCanvas br src)) ->
  s = src /\ String.prefix "data:" src = false.
Proof.
  unfold loadImageToCanvas.
  destruct (String.prefix "data:" src) eqn:Ep; cbn [negb].
  - destruct (loadImage br src false).
    + cbn. intuition congruence.
    + pose proof (canvasBlobFallback_no_co br src s) as Hn.
      destruct (canvasBlobFallback br src) as [t r]. cbn in *. intuition congruence.
  - destruct (loadImage br src true).
    + cbn. intros [H|[]]. injection H as <-. auto.
    + destruct (loadImage br src false).
      * cbn. intros [H|[H|[]]]; [injection H as <-; auto|discriminate].
      * pose proof (canvasBlobFallback_no_co br src s) as Hn.
        destruct (canvasBlobFallback br src) as [t r]. cbn in *.
        intros [H|[H|H]]; [injection H as <-; auto|discriminate|contradiction].
Qed.

Lemma loadImageToCanvas_crossOrigin_witness :
  let br := mkBrowser (fun _ => Some (mkResponse true 200 (Some "png-bytes"%string)))
                      (fun s co => if co then None
                                   else if String.eqb s "blob:1" then Some (mkImgElem 0 64 0 48) else None)
                      (fun _ => "blob:1"%string) true (fun _ _ _ => 128) in
  In (ImgLoad "https://example.com/a.png" true) (fst (loadImageToCanvas br "https://example.com/a.png")) /\
  "https://example.com/a.png"%string = "https://example.com/a.png"%string /\
  String.prefix "data:" "https://example.com/a.png" = false.
Proof.
  intro br.
  assert (Hin : In (ImgLoad "https://example.com/a.png" true) (fst (loadImageToCanvas br "https://example.com/a.png")))
    by (vm_compute; left; reflexivity).
  split; [exact Hin|].
  exact (loadImageToCanvas_crossOrigin br "https://example.com/a.png" "https://example.com/a.png" Hin).
Defined.

(** X8: [loadImageToCanvas] falls back to fetching [src] as a blob exactly
    when the direct loads failed: the load without [crossOrigin] and, for a
    URL that is not a [data:] URL, the first load with [crossOrigin]. *)
Theorem loadImageToCanvas_fetch_last_resort (br : Browser) (src s : String.string) :
  In (FetchCall s) (fst (loadImageToCanvas br src)) <->
  s = src /\ loadImage br src false = None /\
  (String.prefix "data:" src = false -> loadImage br src true = None).
Proof.
  unfold loadImageToCanvas.
  destruct (String.prefix "data:" src) eqn:Ep; cbn [negb].
  - destruct (loadImage br src false) eqn:E0.
    + cbn. split; [intuition congruence|intros [_ [H _]]; discriminate].
    + pose proof (canvasBlobFallback_fetch br src s) as Hf.
      pose proof (canvasBlobFallback_fetched br src) as Hd.
      destruct (canvasBlobFallback br src) as [t r]. cbn in *.
      split.
      * intros [H|H]; [discriminate|]. split; [auto|split; [reflexivity|discriminate]].
      * intros [-> _]. right. exact Hd.
  - destruct (loadImage br src true) eqn:E1.
    + cbn. split; [intuition congruence|intros [_ [_ H]]; discriminate (H eq_refl)].
    + destruct (loadImage br src false) eqn:E0.
      * cbn. split; [intuition congruence|intros [_ [H _]]; discriminate].
      * pose proof (canvasBlobFallback_fetch br src s) as Hf.
        pose proof (canvasBlobFallback_fetched br src) as Hd.
        destruct (canvasBlobFallback br src) as [t r]. cbn in *.
        split.
        -- intros [H|[H|H]]; try discriminate. auto.
        -- intros [-> _]. right. right. exact Hd.
Qed.

Lemma loadImageToCanvas_fetch_last_resort_witness :
  let br := mkBrowser (fun _ => Some (mkResponse true 200 (Some "svg-bytes"%string)))
                      (fun s co => if String.eqb s "blob:2" then Some (mkImgElem 0 300 0 150) else None)
                      (fun _ => "blob:2"%string) true (fun _ _ _ => 0) in
  In (FetchCall "data:image/svg+xml,x") (fst (loadImageToCanvas br "data:image/svg+xml,x")) /\
  loadImage br "data:image/svg+xml,x" false = None.
Proof.
  intro br.
  assert (H : In (FetchCall "data:image/svg+xml,x") (fst (loadImageToCanvas br "data:image/svg+xml,x")))
    by (vm_compute; right; left; reflexivity).
  split; [exact H|].
  exact (proj1 (proj2 (proj1 (loadImageToCanvas_fetch_last_resort br "data:image/svg+xml,x"
                                 "data:image/svg+xml,x") H))).
Defined.

(** X9: [loadImageToCanvas] creates at most one object URL, and revokes
    every object URL it creates, whether the blob image loads or not. *)
Theorem loadImageToCanvas_blob_url_revoked (br : Browser) (src : String.string) :
  let t := fst (loadImageToCanvas br src) in
  countEv isCreate t = countEv isRevoke t /\ (countEv isCreate t <= 1)%nat.
Proof.
  cbv zeta. unfold loadImageToCanvas.
  pose proof (canvasBlobFallback_counts br src) as Hc.
  destruct (canvasBlobFallback br src) as [t r]. cbn in Hc.
  destruct (negb (String.prefix "data:" src)).
  - destruct (loadImage br src true); [cbn; lia|].
    destruct (loadImage br src false); cbn; [lia|]. exact Hc.
  - destruct (loadImage br src false); cbn; [lia|]. exact Hc.
Qed.

(** X10: [loadImageToCanvas] rejects only after it has tried the
    fetch-as-blob fallback. *)
Theorem loadImageToCanvas_reject_after_fetch (br : Browser) (src : String.string) :
  snd (loadImageToCanvas br src) = None ->
  In (FetchCall src) (fst (loadImageToCanvas br src)).
Proof.
  unfold loadImageToCanvas.
  pose proof (canvasBlobFallback_fetched br src) as Hd.
  destruct (canvasBlobFallback br src) as [t r]. cbn in Hd.
  destruct (negb (String.prefix "data:" src)).
  - destruct (loadImage br src true); [discriminate|].
    destruct (loadImage br src false); [discriminate|]. cbn. auto.
  - destruct (loadImage br src false); [discriminate|]. cbn. auto.
Qed.

Lemma loadImageToCanvas_reject_after_fetch_witness :
  let br := mkBrowser (fun _ => None) (fun _ _ => None) (fun _ => "blob:3"%string) true (fun _ _ _ => 0) in
  snd (loadImageToCanvas br "https://example.com/missing.png") = None /\
  In (FetchCall "https://example.com/missing.png") (fst (loadImageToCanvas br "https://example.com/missing.png")).
Proof.
  intro br.
  assert (H : snd (loadImageToCanvas br "https://example.com/missing.png") = None)
    by (vm_compute; reflexivity).
  exact (conj H (loadImageToCanvas_reject_after_fetch br "https://example.com/missing.png" H)).
Defined.

(** X11: [loadAlphaMap] creates at most one object URL and revokes every one
    it creates, also when the blob image fails to load or the 2d context is
    missing. *)
Theorem loadAlphaMap_blob_url_revoked (br : Browser) (src : String.string) (size : Z) :
  let t := fst (loadAlphaMap br src size) in
  countEv isCreate t = countEv isRevoke t /\ (countEv isCreate t <= 1)%nat.
Proof.
  cbv zeta. unfold loadAlphaMap.
  destruct (fetch br src) as [res|].
  2:{ destruct (loadImage br src true); cbn; lia. }
  destruct (ok res).
  2:{ destruct (loadImage br src true); cbn; lia. }
  destruct (blob res) as [b|].
  - destruct (loadImage br (createObjectURL br b) false); cbn; lia.
  - destruct (loadImage br src true); cbn; lia.
Qed.

(** X12: [loadAlphaMap] tries the direct load with [crossOrigin] exactly when
    its fetch phase failed ([fetch] rejected, [res.ok] was false or
    [res.blob()] rejected), and then only for [src]; once the blob is read, a
    failure of the blob image or of the extraction is final. *)
Theorem loadAlphaMap_fallback_iff (br : Browser) (src s : String.string) (size : Z) :
  In (ImgLoad s true) (fst (loadAlphaMap br src size)) <->
  s = src /\ fetchPhaseOk br src = false.
Proof.
  unfold loadAlphaMap, fetchPhaseOk.
  destruct (fetch br src) as [res|].
  2:{ destruct (loadImage br src true); cbn; split;
      [intros [H|[H|[]]]; [discriminate|injection H as <-; auto]| intros [-> _]; right; left; reflexivity
      |intros [H|[H|[]]]; [discriminate|injection H as <-; auto]| intros [-> _]; right; left; reflexivity]. }
  destruct (ok res).
  2:{ destruct (loadImage br src true); cbn; split;
      [intros [H|[H|[]]]; [discriminate|injection H as <-; auto]| intros [-> _]; right; left; reflexivity
      |intros [H|[H|[]]]; [discriminate|injection H as <-; auto]| intros [-> _]; right; left; reflexivity]. }
  destruct (blob res) as [b|].
  - destruct (loadImage br (createObjectURL br b) false); cbn; split;
      (intuition congruence).
  - destruct (loadImage br src true); cbn; split;
      [intros [H|[H|[]]]; [discriminate|injection H as <-; auto]| intros [-> _]; right; left; reflexivity
      |intros [H|[H|[]]]; [discriminate|injection H as <-; auto]| intros [-> _]; right; left; reflexivity].
Qed.

Lemma loadAlphaMap_fallback_iff_witness :
  let br := mkBrowser (fun _ => Some (mkResponse false 404 (Some "not found"%string)))
                      (fun s co => if co then Some (mkImgElem 2 2 2 2) else None)
                      (fun _ => "blob:5"%string) true (fun _ _ _ => 255) in
  In (ImgLoad "/bg_96.png" true) (fst (loadAlphaMap br "/bg_96.png" 2)) /\
  "/bg_96.png"%string = "/bg_96.png"%string /\ fetchPhaseOk br "/bg_96.png" = false.
Proof.
  intro br.
  assert (H : In (ImgLoad "/bg_96.png" true) (fst (loadAlphaMap br "/bg_96.png" 2)))
    by (vm_compute; right; left; reflexivity).
  exact (conj H (proj1 (loadAlphaMap_fallback_iff br "/bg_96.png" "/bg_96.png" 2) H)).
Defined.

(** X13: when [loadAlphaMap] resolves, the alpha map has [size * size]
    entries, each in [0, 1], whichever path produced it. *)
Theorem loadAlphaMap_resolved_shape (br : Browser) (src : String.string) (size : Z) (am : list Q) :
  (forall img i, 0 <= drawScaled br img size i <= 255) ->
  snd (loadAlphaMap br src size) = Resolved am ->
  length am = Z.to_nat (size * size) /\ forall q, In q am -> (0 <= q <= 1)%Q.
Proof.
  intros Hb. unfold loadAlphaMap.
  destruct (fetch br src) as [res|].
  2:{ destruct (loadImage br src true) as [img|]; cbn; [apply extractFromImg_shape, Hb|discriminate]. }
  destruct (ok res).
  2:{ destruct (loadImage br src true) as [img|]; cbn; [apply extractFromImg_shape, Hb|discriminate]. }
  destruct (blob res) as [b|].
  - destruct (loadImage br (createObjectURL br b) false) as [img|]; cbn;
      [apply extractFromImg_shape, Hb|discriminate].
  - destruct (loadImage br src true) as [img|]; cbn; [apply extractFromImg_shape, Hb|discriminate].
Qed.

Lemma loadAlphaMap_resolved_shape_witness :
  let br := mkBrowser (fun _ => Some (mkResponse true 200 (Some "png-bytes"%string)))
                      (fun s co => if co then None else Some (mkImgElem 2 2 2 2))
                      (fun _ => "blob:4"%string) true (fun _ _ i => (i * 37) mod 256) in
  let am := match snd (loadAlphaMap br "/bg_48.png" 2) with Resolved a => a | Rejected _ => [] end in
  snd (loadAlphaMap br "/bg_48.png" 2) = Resolved am /\
  length am = Z.to_nat (2 * 2) /\ forall q, In q am -> (0 <= q <= 1)%Q.
Proof.
  intros br am.
  assert (Hb : forall img i, 0 <= drawScaled br img 2 i <= 255).
  { intros img i. cbn. pose proof (Z.mod_pos_bound (i * 37) 256 ltac:(lia)). lia. }
  assert (H : snd (loadAlphaMap br "/bg_48.png" 2) = Resolved am) by (vm_compute; reflexivity).
  exact (conj H (loadAlphaMap_resolved_shape br "/bg_48.png" 2 am Hb H)).
Defined.
